(** * MusicBrainz Artist Credits Helper: the credit-string parser and the
      input-list editor of [musicbrainz-artist-credits-helper.user.js].

    The development embeds the script's pure parser
    ([parseArtistCreditsString] with its [JOIN_PHRASE_PATTERN]), the
    [ArtistCreditsEditor] class over a model of the bubble's text inputs,
    and the character-voice append flow, and proves properties of them. *)

From Stdlib Require Import NArith String Ascii.
From Stdlib Require Import ZArith.
From stdpp Require Import base numbers list.

Local Open Scope nat_scope.

(** ** Strings

    A JavaScript string is a sequence of UTF-16 code units; [length] and
    every index of the script count code units. *)

Definition jsstring := list N.

(** An ASCII literal as code units. *)
Definition u16 (s : string) : jsstring :=
  map N_of_ascii (list_ascii_of_string s).

(** [S.substring(a, b)] for [a <= b]. *)
Definition substring (s : jsstring) (a b : nat) : jsstring :=
  take (b - a) (drop a s).

(** Truthiness of a string value: only the empty string is falsy. *)
Definition truthy (s : jsstring) : bool :=
  match s with [] => false | _ :: _ => true end.

(** ** Regular expressions

    The fragment of the pattern language that [JOIN_PHRASE_PATTERN] uses:
    character sets, sequence, disjunction and the greedy quantifiers
    [*] and [?].  There are no capture groups, assertions or
    back-references in the pattern, so a match at a position depends only
    on the code units from that position on. *)

Inductive regex : Type :=
| Eps
| Cls (p : N -> bool)
| Cat (r1 r2 : regex)
| Alt (r1 r2 : regex)
| Star (r : regex)
| Opt (r : regex).

(** The backtracking matcher, in continuation-passing style as in the
    language specification: [re_match r s k] matches [r] at the front of
    [s] and hands the rest to [k]; when [k] fails the matcher backtracks.
    A disjunction tries its left alternative first; the quantifiers are
    greedy and refuse an iteration that consumed nothing.  The iteration
    count of [Star] is bounded by the length of the input, which every
    accepted iteration shortens. *)
Fixpoint re_match (r : regex) (s : jsstring)
    (k : jsstring -> option jsstring) {struct r} : option jsstring :=
  match r with
  | Eps => k s
  | Cls p =>
      match s with
      | c :: s' => if p c then k s' else None
      | [] => None
      end
  | Cat r1 r2 => re_match r1 s (fun s' => re_match r2 s' k)
  | Alt r1 r2 =>
      match re_match r1 s k with
      | Some x => Some x
      | None => re_match r2 s k
      end
  | Star r1 =>
      (fix repeat (n : nat) (s : jsstring) {struct n} : option jsstring :=
         match n with
         | 0 => k s
         | S n' =>
             match re_match r1 s
                     (fun s' => if length s' <? length s
                                then repeat n' s' else None) with
             | Some x => Some x
             | None => k s
             end
         end) (length s) s
  | Opt r1 =>
      match re_match r1 s
              (fun s' => if length s' <? length s then k s' else None) with
      | Some x => Some x
      | None => k s
      end
  end.

(** The loop of [Star] with its bound as an argument. *)
Fixpoint star_loop (r1 : regex) (k : jsstring -> option jsstring)
    (n : nat) (s : jsstring) {struct n} : option jsstring :=
  match n with
  | 0 => k s
  | S n' =>
      match re_match r1 s
              (fun s' => if length s' <? length s
                         then star_loop r1 k n' s' else None) with
      | Some x => Some x
      | None => k s
      end
  end.

(** Canonicalize of a case-insensitive, non-unicode pattern, on the ASCII
    range: a code unit of 128 or more never canonicalizes to one below
    128, so a pattern letter matches exactly its two ASCII cases; none of
    the other members of the pattern's sets has a case mapping. *)
Definition canonicalize (c : N) : N :=
  if ((97 <=? c) && (c <=? 122))%N then (c - 32)%N else c.

(** A pattern character under the [i] flag. *)
Definition chr (a : ascii) : regex :=
  Cls (fun c => (canonicalize c =? canonicalize (N_of_ascii a))%N).

(** A caseless pattern character, by its code unit. *)
Definition uni (u : N) : regex := Cls (fun c => (c =? u)%N).

(** A character class listing its members. *)
Definition one_of (members : list N) : regex :=
  Cls (fun c => existsb (fun a => (canonicalize c =? canonicalize a)%N) members).

Fixpoint lit_chars (l : list ascii) : regex :=
  match l with
  | [] => Eps
  | [a] => chr a
  | a :: l' => Cat (chr a) (lit_chars l')
  end.

(** A run of pattern characters. *)
Definition lit (s : string) : regex := lit_chars (list_ascii_of_string s).

(** [\s]: WhiteSpace and LineTerminator code units. *)
Definition is_space (c : N) : bool :=
  existsb (N.eqb c)
    [0x9; 0xA; 0xB; 0xC; 0xD; 0x20; 0xA0; 0x1680; 0x2028; 0x2029;
     0x202F; 0x205F; 0x3000; 0xFEFF]%N
  || ((0x2000 <=? c) && (c <=? 0x200A))%N.

Definition ws : regex := Cls is_space.

(** Code units of the pattern's characters. *)
Definition LPAREN : N := 0x28.       (* ( *)
Definition RPAREN : N := 0x29.       (* ) *)
Definition FW_LPAREN : N := 0xFF08.  (* fullwidth left parenthesis *)
Definition FW_RPAREN : N := 0xFF09.  (* fullwidth right parenthesis *)
Definition FW_COLON : N := 0xFF1A.   (* fullwidth colon *)
Definition FW_COMMA : N := 0xFF0C.   (* fullwidth comma *)
Definition IDEO_COMMA : N := 0x3001. (* ideographic comma *)
Definition KATA_DOT : N := 0x30FB.   (* katakana middle dot *)
Definition DOT : N := 0x2E.
Definition COLON : N := 0x3A.
Definition SPACE : N := 0x20.
Definition COMMA : N := 0x2C.
Definition AMP : N := 0x26.

(** [[\(（]CV[\.:： ]?] *)
Definition cv_open : regex :=
  Cat (one_of [LPAREN; FW_LPAREN])
      (Cat (lit "CV") (Opt (one_of [DOT; COLON; FW_COLON; SPACE]))).

(** [[\)）]\s*[,，、・]?] *)
Definition cv_close : regex :=
  Cat (one_of [RPAREN; FW_RPAREN])
      (Cat (Star ws) (Opt (one_of [COMMA; FW_COMMA; IDEO_COMMA; KATA_DOT]))).

(** [\s(?:featuring|feat|ft|vs)[\.\s]] *)
Definition conjunction : regex :=
  Cat ws
      (Cat (Alt (lit "featuring") (Alt (lit "feat") (Alt (lit "ft") (lit "vs"))))
           (Cls (fun c => (c =? DOT)%N || is_space c))).

(** [/\s*(?:[\(（]CV[\.:： ]?|[\)）]\s*[,，、・]?|\s(?:featuring|feat|ft|vs)[\.\s]|,|，|、|&|・)\s*/gi] *)
Definition JOIN_PHRASE_PATTERN : regex :=
  Cat (Star ws)
      (Cat (Alt cv_open
           (Alt cv_close
           (Alt conjunction
           (Alt (uni COMMA)
           (Alt (uni FW_COMMA)
           (Alt (uni IDEO_COMMA)
           (Alt (uni AMP)
                (uni KATA_DOT))))))))
           (Star ws)).

(** ** RegExp built-ins *)

(** A match object: [index] and [match[0]]. *)
Record RegExpMatch : Type := { index : nat; matched : jsstring }.

Section RegExpBuiltins.

(** The pattern of the regular expression object. *)
Variable pattern : regex.

(** One run of the matcher at the front of [s]: the number of code
    units the match consumed. *)
Definition match_here (s : jsstring) : option nat :=
  match re_match pattern s Some with
  | Some rest => Some (length s - length rest)
  | None => None
  end.

(** The search of RegExpBuiltinExec from index [i], [s] being the input
    from [i] on: try at [i], on failure advance by one code unit, fail
    once past the end.  The result is the match's index and end index. *)
Fixpoint search (s : jsstring) (i : nat) : option (nat * nat) :=
  match match_here s with
  | Some n => Some (i, i + n)
  | None =>
      match s with
      | [] => None
      | _ :: s' => search s' (S i)
      end
  end.

(** [exec] of a global regular expression whose [lastIndex] is
    [lastIndex]. *)
Definition exec (str : jsstring) (lastIndex : nat) : option (nat * nat) :=
  if length str <? lastIndex then None
  else search (drop lastIndex str) lastIndex.

(** The iterator of [str.matchAll]: each [next()] runs [exec] and, after
    an empty match, advances [lastIndex] by one.  It yields at most
    [length str + 1] matches, which bounds [fuel]. *)
Fixpoint matchAll_from (fuel : nat) (str : jsstring) (lastIndex : nat)
  : list RegExpMatch :=
  match fuel with
  | 0 => []
  | S fuel' =>
      match exec str lastIndex with
      | None => []
      | Some (i, e) =>
          {| index := i; matched := substring str i e |}
            :: matchAll_from fuel' str (if e =? i then e + 1 else e)
      end
  end.

(** [str.matchAll(regexp)] works on a copy of the regular expression
    that starts at the [lastIndex] of the original; the script never runs
    [exec] or [test] on its pattern, whose [lastIndex] so stays 0. *)
Definition matchAll (str : jsstring) : list RegExpMatch :=
  matchAll_from (S (length str)) str 0.

(** The loop of [RegExp.prototype[Symbol.split]] without a limit, for a
    pattern without capture groups: [p] is the end of the last
    separator, [q] the position tried next (with a sticky match).  A
    match that ends at [p] is passed over.  Every round either advances
    [q] or moves [p] up to [q], so [2 * length str] rounds suffice. *)
Fixpoint split_loop (fuel : nat) (str : jsstring) (p q : nat)
  : list jsstring :=
  match fuel with
  | 0 => [substring str p (length str)]
  | S fuel' =>
      if q <? length str then
        match match_here (drop q str) with
        | None => split_loop fuel' str p (S q)
        | Some n =>
            let e := Nat.min (q + n) (length str) in
            if e =? p then split_loop fuel' str p (S q)
            else substring str p q :: split_loop fuel' str e e
        end
      else [substring str p (length str)]
  end.

Definition split (str : jsstring) : list jsstring :=
  match str with
  | [] => match match_here [] with Some _ => [] | None => [[]] end
  | _ => split_loop (2 * length str) str 0 0
  end.

End RegExpBuiltins.


(** ** The parser *)

(** [ArtistCredit]: [artist] is required, the other two properties are
    optional ([None] when the object has no such property). *)
Record ArtistCredit : Type := {
  artist : jsstring;
  creditedAs : option jsstring;
  joinPhrase : option jsstring
}.

(** [{ artist }] *)
Definition new_credit (a : jsstring) : ArtistCredit :=
  {| artist := a; creditedAs := None; joinPhrase := None |}.

(** [credit.joinPhrase = v] *)
Definition set_joinPhrase (v : jsstring) (c : ArtistCredit) : ArtistCredit :=
  {| artist := artist c; creditedAs := creditedAs c; joinPhrase := Some v |}.

(** [{ ...credit, joinPhrase: v }] for a value that is a string or
    [null]: [null] is kept as [None], since the only reader of the
    property, [updateInputs], tests it for truthiness and so skips
    [null] as it skips a property that is not there. *)
Definition with_joinPhrase (v : option jsstring) (c : ArtistCredit)
  : ArtistCredit :=
  {| artist := artist c; creditedAs := creditedAs c; joinPhrase := v |}.

(** [credit.creditedAs = v] *)
Definition set_creditedAs (v : jsstring) (c : ArtistCredit) : ArtistCredit :=
  {| artist := artist c; creditedAs := Some v; joinPhrase := joinPhrase c |}.

(** The [for (const artist of artists)] loop of [parseArtistCreditsString]:
    [matches] is what the iterator has not yielded yet; every round
    takes one match from it, whether the match is recorded or not. *)
Fixpoint credits_loop (pos : nat) (artists : list jsstring)
    (matches : list RegExpMatch) : list ArtistCredit :=
  match artists with
  | [] => []
  | a :: artists' =>
      let credit := new_credit a in
      let pos := pos + length a in
      match matches with
      | [] => credit :: credits_loop pos artists' []
      | m :: matches' =>
          if index m =? pos
          then set_joinPhrase (matched m) credit
                 :: credits_loop (pos + length (matched m)) artists' matches'
          else credit :: credits_loop pos artists' matches'
      end
  end.

(** [if (credits[0]) credits[0].creditedAs = credits[0].artist] *)
Definition credit_first (credits : list ArtistCredit) : list ArtistCredit :=
  match credits with
  | [] => []
  | c :: rest => set_creditedAs (artist c) c :: rest
  end.

Definition parseArtistCreditsString (str : jsstring) : list ArtistCredit :=
  if truthy str then
    credit_first
      (credits_loop 0 (split JOIN_PHRASE_PATTERN str)
                      (matchAll JOIN_PHRASE_PATTERN str))
  else [].

(** The text a credit stands for: its artist, then its join phrase. *)
Definition credit_text (c : ArtistCredit) : jsstring :=
  artist c ++ default [] (joinPhrase c).

Definition credits_text (credits : list ArtistCredit) : jsstring :=
  concat (map credit_text credits).

(** ** The page

    The editor works on the text inputs of the artist credit bubble,
    [bubble.querySelectorAll("input[type=text]")] in document order.  An
    input element is referred to by its position in that list. *)

Record HTMLInputElement : Type := { value : jsstring; disabled : bool }.

Inductive JsError : Type := TypeError.

(** The callbacks the editor hands to [setTimeout]. *)
Inductive Task : Type :=
| AddItemClick                               (* () => this.#addButton.click() *)
| FillWrite (credits : list ArtistCredit)    (* the second callback of fill *)
| AppendWrite (credit : ArtistCredit).       (* the callback of append *)

Record Page : Type := {
  inputs : list HTMLInputElement;
  clicks : nat;               (* clicks received by the add button *)
  dispatched : nat;           (* input events dispatched by setInputValue *)
  alerts : list jsstring;     (* messages shown by alert, oldest first *)
  timers : list (nat * Task); (* pending timers, by delay, earliest first *)
  uncaught : list JsError     (* errors thrown out of timer callbacks *)
}.

(** The page after writes to its inputs: the inputs are [l] and [d] input
    events have been dispatched. *)
Definition wrote (l : list HTMLInputElement) (d : nat) (pg : Page) : Page :=
  {| inputs := l; clicks := clicks pg; dispatched := d;
     alerts := alerts pg; timers := timers pg; uncaught := uncaught pg |}.

Definition with_timers (q : list (nat * Task)) (pg : Page) : Page :=
  {| inputs := inputs pg; clicks := clicks pg; dispatched := dispatched pg;
     alerts := alerts pg; timers := q; uncaught := uncaught pg |}.

(** ** Statements with effects: a state monad over the page whose
    computations complete normally or throw. *)

Inductive Completion (A : Type) : Type :=
| Normal (a : A)
| Throw (e : JsError).
Arguments Normal {A} a.
Arguments Throw {A} e.

Definition M (A : Type) : Type := Page -> Completion A * Page.

Definition ret {A} (a : A) : M A := fun pg => (Normal a, pg).

Definition throw {A} (e : JsError) : M A := fun pg => (Throw e, pg).

Definition bind {A B} (m : M A) (f : A -> M B) : M B :=
  fun pg =>
    match m pg with
    | (Normal a, pg') => f a pg'
    | (Throw e, pg') => (Throw e, pg')
    end.

Declare Scope js_scope.
Delimit Scope js_scope with js.
Notation "x <- m ;; f" := (bind m (fun x => f))
  (at level 100, m at next level, f at level 200, right associativity)
  : js_scope.
Notation "m ;; f" := (bind m (fun _ => f))
  (at level 100, f at level 200, right associativity) : js_scope.
Local Open Scope js_scope.

(** The page a computation leaves behind, however it completes. *)
Definition exec_on {A} (m : M A) (pg : Page) : Page := snd (m pg).

(** [alert(msg)]; its value is [undefined]. *)
Definition alerted (msg : jsstring) (pg : Page) : Page :=
  {| inputs := inputs pg; clicks := clicks pg; dispatched := dispatched pg;
     alerts := alerts pg ++ [msg]; timers := timers pg;
     uncaught := uncaught pg |}.

Definition alert (msg : jsstring) : M (option jsstring) :=
  fun pg => (Normal None, alerted msg pg).

(** The timer queue keeps timers by delay; a timer goes behind those
    already queued with the same delay. *)
Fixpoint insert_timer (d : nat) (t : Task) (q : list (nat * Task))
  : list (nat * Task) :=
  match q with
  | [] => [(d, t)]
  | (d', t') :: q' =>
      if d' <=? d then (d', t') :: insert_timer d t q'
      else (d, t) :: (d', t') :: q'
  end.

Definition setTimeout (t : Task) (delay : nat) : M unit :=
  fun pg => (Normal tt, with_timers (insert_timer delay t (timers pg)) pg).

(** [setInputValue(input, value)]: nothing happens for a missing or a
    disabled input; otherwise the native setter stores the value and an
    input event is dispatched. *)
Definition setInputValue (input : option nat) (v : jsstring) : M unit :=
  fun pg =>
    match input with
    | None => (Normal tt, pg)
    | Some i =>
        match inputs pg !! i with
        | None => (Normal tt, pg)
        | Some el =>
            if disabled el then (Normal tt, pg)
            else
              (Normal tt,
               wrote (<[i := {| value := v; disabled := disabled el |}]>
                        (inputs pg))
                     (S (dispatched pg)) pg)
        end
    end.

(** ** ArtistCreditsEditor *)

(** [ArtistCreditInputs]: a property is [None] when the group of inputs
    it was cut from is too short to have it. *)
Record ArtistCreditInputs : Type := {
  artistInput : option nat;
  creditedAsInput : option nat;
  joinPhraseInput : option nat
}.

Definition SIZE : nat := 3.

(** Element [i] of an array of [n] elements. *)
Definition elem (n i : nat) : option nat := if i <? n then Some i else None.

(** [inputs.slice(i * SIZE, i * SIZE + SIZE)] as an [ArtistCreditInputs]. *)
Definition group (n i : nat) : ArtistCreditInputs :=
  {| artistInput := elem n (i * SIZE);
     creditedAsInput := elem n (i * SIZE + 1);
     joinPhraseInput := elem n (i * SIZE + 2) |}.

(** [Math.ceil(n / SIZE)] *)
Definition groups (n : nat) : nat := (n + (SIZE - 1)) / SIZE.

(** Where [Array.prototype.slice(start)] begins in an array of [len]
    elements. *)
Definition slice_start (len : nat) (start : Z) : nat :=
  if (start <? 0)%Z then Z.to_nat (Z.max (Z.of_nat len + start) 0)
  else Nat.min (Z.to_nat start) len.

(** [Array.prototype.at(k)] *)
Definition at_ {A} (l : list A) (k : Z) : option A :=
  let i := if (k <? 0)%Z then (Z.of_nat (length l) + k)%Z else k in
  if (i <? 0)%Z then None else l !! Z.to_nat i.

Definition getInputs (sliceIndex : Z) (pg : Page) : list ArtistCreditInputs :=
  let n := length (inputs pg) in
  drop (slice_start (groups n) sliceIndex) (group n <$> seq 0 (groups n)).

(** [input.value]; reading a property of [undefined] throws. *)
Definition read_value (input : option nat) : M jsstring :=
  fun pg =>
    match input with
    | None => (Throw TypeError, pg)
    | Some i =>
        match inputs pg !! i with
        | Some el => (Normal (value el), pg)
        | None => (Throw TypeError, pg)
        end
    end.

(** One round of the [for (const key in newCredit)] loop of
    [updateInputs]: [v] is [newCredit[key]], [None] when the credit has
    no such property (and so no round for it). *)
Definition update_key (inputs : option ArtistCreditInputs)
    (key : ArtistCreditInputs -> option nat) (v : option jsstring) : M unit :=
  match v with
  | None => ret tt
  | Some v =>
      if truthy v then
        match inputs with
        | None => throw TypeError
        | Some g => setInputValue (key g) v
        end
      else ret tt
  end.

(** [updateInputs(inputs, newCredit)].  The loop visits the properties in
    the order in which the credit got them; the rounds write to different
    inputs, and the model visits them in the order of the typedef. *)
Definition updateInputs (inputs : option ArtistCreditInputs)
    (newCredit : ArtistCredit) : M unit :=
  update_key inputs artistInput (Some (artist newCredit)) ;;
  update_key inputs creditedAsInput (creditedAs newCredit) ;;
  update_key inputs joinPhraseInput (joinPhrase newCredit).

(** The [oldCredit] of [update]: the values of the three inputs. *)
Definition read_credit (g : ArtistCreditInputs) : M ArtistCredit :=
  a <- read_value (artistInput g) ;;
  c <- read_value (creditedAsInput g) ;;
  j <- read_value (joinPhraseInput g) ;;
  ret {| artist := a; creditedAs := Some c; joinPhrase := Some j |}.

Definition update (idx : Z) (updater : ArtistCredit -> ArtistCredit) : M unit :=
  fun pg =>
    match at_ (getInputs 0 pg) idx with
    | None => (Normal tt, pg)
    | Some g =>
        (oldCredit <- read_credit g ;;
         updateInputs (Some g) (updater oldCredit)) pg
    end.

(** [for (let i = 1; i <= n; ++i) setTimeout(() => this.#addButton.click(), 10)] *)
Fixpoint schedule_clicks (n : nat) : M unit :=
  match n with
  | 0 => ret tt
  | S n' => setTimeout AddItemClick 10 ;; schedule_clicks n'
  end.

Definition fill (credits : list ArtistCredit) : M unit :=
  fun pg =>
    let inputs := getInputs 0 pg in
    ((if length inputs <? length credits
      then schedule_clicks (length credits - length inputs)
      else ret tt) ;;
     setTimeout (FillWrite credits) 30) pg.

(** [credits.forEach((credit, index) => this.updateInputs(inputs[index], credit))],
    from [index] on. *)
Fixpoint write_credits (inputs : list ArtistCreditInputs) (idx : nat)
    (credits : list ArtistCredit) : M unit :=
  match credits with
  | [] => ret tt
  | credit :: credits' =>
      updateInputs (inputs !! idx) credit ;;
      write_credits inputs (S idx) credits'
  end.

Section Host.

(** What the host page does to the bubble's inputs when the add button
    is clicked. *)
Variable host_add_item : list HTMLInputElement -> list HTMLInputElement.

(** [this.#addButton.click()] *)
Definition click : M unit :=
  fun pg =>
    (Normal tt,
     {| inputs := host_add_item (inputs pg); clicks := S (clicks pg);
        dispatched := dispatched pg; alerts := alerts pg;
        timers := timers pg; uncaught := uncaught pg |}).

Definition append (credit : ArtistCredit) : M unit :=
  click ;; setTimeout (AppendWrite credit) 10.

Definition run_task (t : Task) : M unit :=
  match t with
  | AddItemClick => click
  | FillWrite credits =>
      fun pg => write_credits (getInputs 0 pg) 0 credits pg
  | AppendWrite credit =>
      fun pg => updateInputs (head (getInputs (-1) pg)) credit pg
  end.

(** The event loop runs the callbacks one after the other; an error
    thrown by one is reported and does not stop the next. *)
Fixpoint run_tasks (ts : list Task) (pg : Page) : Page :=
  match ts with
  | [] => pg
  | t :: ts' =>
      match run_task t pg with
      | (Normal _, pg') => run_tasks ts' pg'
      | (Throw e, pg') =>
          run_tasks ts'
            {| inputs := inputs pg'; clicks := clicks pg';
               dispatched := dispatched pg'; alerts := alerts pg';
               timers := timers pg'; uncaught := uncaught pg' ++ [e] |}
      end
  end.

(** All pending timers fire, in the order of the queue.  No callback of
    the editor sets a timer. *)
Definition run_timers (pg : Page) : Page :=
  run_tasks (map snd (timers pg)) (with_timers [] pg).

End Host.

(** ** The commands *)

(** Default values *)
Definition CV_JOIN_PHRASES : jsstring * jsstring := (u16 " (CV ", u16 ")").
Definition SEPARATOR : jsstring := u16 ",".

(** A token of the configuration: a string, or [null] ([None]), which
    is what [prompt] returns when it is cancelled and what
    [setCVJoinPhrases] then stores. *)
Definition Token : Type := option jsstring.

(** A token in a string concatenation, or passed where a string is
    expected: [null] reads "null". *)
Definition token_str (t : Token) : jsstring := default (u16 "null") t.

(** The object stored under ["cv_join_phrases"]: each property may be
    there or not, and a token that is there may be [null]. *)
Record StoredPhrases : Type := {
  stored_joinPhrases : option (Token * Token);
  stored_separator : option Token
}.

Record CVJoinPhrases : Type := {
  joinPhrases : Token * Token;
  separator : Token
}.

(** [getCVJoinPhrases()], [config] being what [GM_getValue] returns:
    the spread of [undefined] adds nothing, the spread of an object
    overrides the properties it has, also with [null]. *)
Definition getCVJoinPhrases (config : option StoredPhrases) : CVJoinPhrases :=
  {| joinPhrases :=
       default (Some (fst CV_JOIN_PHRASES), Some (snd CV_JOIN_PHRASES))
         (config ≫= stored_joinPhrases);
     separator := default (Some SEPARATOR) (config ≫= stored_separator) |}.

(** A link of the preview text as [getCharacterMBID] maps it: the name it
    shows and the part of its address after ["/artist/"], if any. *)
Record PreviewArtist : Type := { name : jsstring; gid : option jsstring }.

(** A relation of the web service's answer. *)
Record Relation : Type := {
  type_id : jsstring;
  direction : jsstring;
  ended : bool;
  relation_artist_id : jsstring
}.

Definition RELATIONSHIP_ID : jsstring :=
  u16 "e259a3f5-ce8e-45c1-9ef7-90ff7d0c7589".

(** The test of [data.relations.find] in [getVoiceActor]. *)
Definition is_voice_actor (r : Relation) : bool :=
  bool_decide (type_id r = RELATIONSHIP_ID)
  && bool_decide (direction r = u16 "backward")
  && negb (ended r).

(** Truthiness of a value that is a string or [undefined]. *)
Definition truthy_opt (v : option jsstring) : bool :=
  match v with Some s => truthy s | None => false end.

(** A value in a string concatenation: [undefined] reads "undefined". *)
Definition to_str (v : option jsstring) : jsstring :=
  default (u16 "undefined") v.

Section Commands.

Variable host_add_item : list HTMLInputElement -> list HTMLInputElement.

(** The name and gid pairs of the links in the preview text. *)
Variable preview : list PreviewArtist.

(** The relations the web service returns for an artist. *)
Variable relations : jsstring -> list Relation.

(** The value stored under ["cv_join_phrases"]. *)
Variable config : option StoredPhrases.

(** [getVoiceActor(characterMBID)], with the answer of the request in
    place of the promise. *)
Definition getVoiceActor (characterMBID : option jsstring)
  : M (option jsstring) :=
  match characterMBID with
  | Some mbid =>
      if truthy mbid then
        match find is_voice_actor (relations mbid) with
        | Some r => ret (Some (relation_artist_id r))
        | None => alert (u16 "No voice actor relationship found.")
        end
      else ret None
  | None => ret None
  end.

Definition getCharacterMBID (characterName : jsstring)
  : M (option jsstring) :=
  match find (fun a => bool_decide (name a = characterName)) preview with
  | Some a =>
      match gid a with
      | Some g => ret (Some g)
      | None => alert (u16 "Character not found in preview text.")
      end
  | None => alert (u16 "Character not found in preview text.")
  end.

(** [editor.getInputs(k)[0]?.artist?.value] *)
Definition first_artist_value (k : Z) (pg : Page) : option jsstring :=
  g ← head (getInputs k pg);
  i ← artistInput g;
  value <$> inputs pg !! i.

(** The callback of [then] in [appendCharacterCV]. *)
Definition append_voice_actor (cv : CVJoinPhrases) (mbid : option jsstring)
  : M unit :=
  match mbid with
  | Some mbid =>
      if truthy mbid then
        update (-2) (fun credit =>
          set_joinPhrase
            (to_str (joinPhrase credit) ++ token_str (separator cv) ++ u16 " ")
            credit) ;;
        update (-1) (fun credit =>
          with_joinPhrase (fst (joinPhrases cv)) credit) ;;
        append host_add_item
          {| artist := mbid; creditedAs := None;
             joinPhrase := snd (joinPhrases cv) |}
      else ret tt
  | None => ret tt
  end.

Definition appendCharacterCV : M unit :=
  fun pg =>
    match first_artist_value (-1) pg with
    | Some characterName =>
        if truthy characterName then
          (let cv := getCVJoinPhrases config in
           mbid0 <- getCharacterMBID characterName ;;
           mbid <- getVoiceActor mbid0 ;;
           append_voice_actor cv mbid) pg
        else (alert (u16 "Please enter a character first.") ;; ret tt) pg
    | None => (alert (u16 "Please enter a character first.") ;; ret tt) pg
    end.

Definition parseArtistCredits : M unit :=
  fun pg =>
    match first_artist_value 0 pg with
    | Some acString =>
        if truthy acString then fill (parseArtistCreditsString acString) pg
        else
          (alert (u16 "Please enter the artist credits to parse in the first input box.") ;;
           ret tt) pg
    | None =>
        (alert (u16 "Please enter the artist credits to parse in the first input box.") ;;
         ret tt) pg
    end.

(** A command and the timers it set, run to the end. *)
Definition run (command : M unit) (pg : Page) : Page :=
  run_timers host_add_item (exec_on command pg).

End Commands.

(** ** Views of the page used in the statements *)

(** The values of the inputs of a group. *)
Definition field_value (pg : Page) (input : option nat) : option jsstring :=
  i ← input; value <$> inputs pg !! i.

(** A fresh, enabled, empty input. *)
Definition blank : HTMLInputElement := {| value := []; disabled := false |}.

(** A host that answers a click with one more slot of three inputs. *)
Definition add_slot (l : list HTMLInputElement) : list HTMLInputElement :=
  l ++ [blank; blank; blank].

(** A host that has not rendered anything by the time the timers fire. *)
Definition no_slot (l : list HTMLInputElement) : list HTMLInputElement := l.

(** An input after [updateInputs] met the value [v] for it: written when
    [v] is there and truthy and the input is enabled. *)
Definition written (el : HTMLInputElement) (v : option jsstring)
  : HTMLInputElement :=
  match v with
  | Some s =>
      if truthy s && negb (disabled el)
      then {| value := s; disabled := disabled el |} else el
  | None => el
  end.

(** The inputs after such a round for the input [input]. *)
Definition write_to (input : option nat) (v : option jsstring)
    (l : list HTMLInputElement) : list HTMLInputElement :=
  match input with
  | Some i =>
      match l !! i with
      | Some el => <[i := written el v]> l
      | None => l
      end
  | None => l
  end.

(** [frame P pg pg']: from [pg] to [pg'] only values of inputs outside
    [P] changed, besides the count of dispatched events. *)
Definition frame (P : nat -> Prop) (pg pg' : Page) : Prop :=
  length (inputs pg') = length (inputs pg) /\
  (forall k, P k -> inputs pg' !! k = inputs pg !! k) /\
  clicks pg' = clicks pg /\ alerts pg' = alerts pg /\
  timers pg' = timers pg /\ uncaught pg' = uncaught pg.

(** The inputs of a group. *)
Definition is_input_of (g : ArtistCreditInputs) (k : nat) : Prop :=
  artistInput g = Some k \/ creditedAsInput g = Some k \/
  joinPhraseInput g = Some k.

(** A page with the given inputs and nothing else. *)
Definition page_of (l : list HTMLInputElement) : Page :=
  {| inputs := l; clicks := 0; dispatched := 0; alerts := [];
     timers := []; uncaught := [] |}.

Definition inp (s : string) : HTMLInputElement :=
  {| value := u16 s; disabled := false |}.

(** ** Sample data *)

Definition one_slot : Page := page_of [inp "A, B"; inp ""; inp ""].

Definition two_slots : Page :=
  page_of [inp "Other"; inp ""; inp " & "; inp "Chara"; inp ""; inp "x"].

Definition sample_preview : list PreviewArtist :=
  [ {| name := u16 "Chara"; gid := Some (u16 "c-1") |} ].

Definition other_preview : list PreviewArtist :=
  [ {| name := u16 "Other"; gid := Some (u16 "o-1") |} ].

Definition sample_relations (_ : jsstring) : list Relation :=
  [ {| type_id := RELATIONSHIP_ID; direction := u16 "backward";
       ended := false; relation_artist_id := u16 "va-1" |} ].

(** A stored configuration whose opening token is the empty string. *)
Definition empty_open : option StoredPhrases :=
  Some {| stored_joinPhrases := Some (Some [], Some (u16 ")"));
          stored_separator := Some (Some (u16 ",")) |}.

(** The flow run on [two_slots] with that configuration. *)
Definition empty_open_run : Page :=
  run add_slot
    (appendCharacterCV add_slot sample_preview sample_relations empty_open)
    two_slots.

Definition sample_match : RegExpMatch := {| index := 1; matched := u16 ", " |}.

Definition sample_credit : ArtistCredit :=
  {| artist := u16 "A"; creditedAs := None; joinPhrase := Some (u16 ", ") |}.

(** The cuts of a string from position [p] on: the pieces between the
    leftmost matches, found one after the other, and those matches. *)
Inductive tokens (pattern : regex) (str : jsstring)
  : nat -> list jsstring -> list RegExpMatch -> Prop :=
| tokens_last p :
    p <= length str ->
    (forall k, match_here pattern (drop (p + k) str) = None) ->
    tokens pattern str p [substring str p (length str)] []
| tokens_next p i e artists matches :
    p <= i -> i < e -> e <= length str ->
    (forall k, k < i - p -> match_here pattern (drop (p + k) str) = None) ->
    match_here pattern (drop i str) = Some (e - i) ->
    tokens pattern str e artists matches ->
    tokens pattern str p (substring str p i :: artists)
      ({| index := i; matched := substring str i e |} :: matches).

(** Whether a pattern can only match a non-empty string. *)
Fixpoint nonnull (r : regex) : bool :=
  match r with
  | Eps => false
  | Cls _ => true
  | Cat r1 r2 => nonnull r1 || nonnull r2
  | Alt r1 r2 => nonnull r1 && nonnull r2
  | Star _ => false
  | Opt _ => false
  end.

(** ** Further views of the parser *)

(** Whether a match of [r] can begin with the code unit [c]. *)
Fixpoint starts (r : regex) (c : N) : bool :=
  match r with
  | Eps => false
  | Cls p => p c
  | Cat r1 r2 => starts r1 c || (negb (nonnull r1) && starts r2 c)
  | Alt r1 r2 => starts r1 c || starts r2 c
  | Star r1 => starts r1 c
  | Opt r1 => starts r1 c
  end.

(** The code units a join phrase can begin with: white space, the
    parentheses of both widths, the commas, the ampersand and the
    middle dot. *)
Definition separator_start (c : N) : bool :=
  is_space c
  || existsb (N.eqb c)
       [LPAREN; FW_LPAREN; RPAREN; FW_RPAREN; COMMA; FW_COMMA; IDEO_COMMA;
        AMP; KATA_DOT].

(** ** Further views of the page *)

(** The inputs a group has, in the order of its properties. *)
Definition group_refs (g : ArtistCreditInputs) : list nat :=
  omap id [artistInput g; creditedAsInput g; joinPhraseInput g].

(** A slot with its three inputs: artist, credited name, join phrase. *)
Definition Slot : Type :=
  (HTMLInputElement * HTMLInputElement * HTMLInputElement)%type.

Definition slot_inputs (sl : Slot) : list HTMLInputElement :=
  let '(a, c, j) := sl in [a; c; j].

(** The inputs of a bubble made of these slots. *)
Definition slots_inputs (sls : list Slot) : list HTMLInputElement :=
  concat (map slot_inputs sls).

(** A slot after [updateInputs] wrote a credit to it. *)
Definition write_slot (sl : Slot) (credit : ArtistCredit) : Slot :=
  let '(a, c, j) := sl in
  (written a (Some (artist credit)), written c (creditedAs credit),
   written j (joinPhrase credit)).

Definition blank_slot : Slot := (blank, blank, blank).

(** The slot that shows a credit and nothing else. *)
Definition credit_slot (credit : ArtistCredit) : Slot :=
  ({| value := artist credit; disabled := false |},
   {| value := default [] (creditedAs credit); disabled := false |},
   {| value := default [] (joinPhrase credit); disabled := false |}).

(** The text a slot stands for: its artist, then its join phrase. *)
Definition slot_text (sl : Slot) : jsstring :=
  let '(a, _, j) := sl in value a ++ value j.

(** ** The configuration command *)

(** [setCVJoinPhrases()]: the object it hands to [GM_setValue], given
    what [GM_getValue] returns and how [prompt(message, default)] is
    answered, [None] being the [null] of a cancelled prompt.  The
    default is passed as a string, so a [null] token is shown as
    "null". *)
Definition setCVJoinPhrases
    (prompt : jsstring -> jsstring -> option jsstring)
    (config : option StoredPhrases) : StoredPhrases :=
  let config := getCVJoinPhrases config in
  let phrase1 :=
    prompt (u16 "Enter the first part of join phrases:")
      (token_str (fst (joinPhrases config))) in
  let phrase2 :=
    prompt (u16 "Enter the second part of join phrases:")
      (token_str (snd (joinPhrases config))) in
  let separator :=
    prompt (u16 "Enter the separator:") (token_str (separator config)) in
  {| stored_joinPhrases := Some (phrase1, phrase2);
     stored_separator := Some separator |}.

(** A configuration stored after the prompt for the separator was
    cancelled. *)
Definition null_separator : option StoredPhrases :=
  Some {| stored_joinPhrases := Some (Some (u16 " (CV "), Some (u16 ")"));
          stored_separator := Some None |}.

(** ** The links of the preview text *)

(** Whether [s] begins with [sep]. *)
Fixpoint starts_with (sep s : jsstring) : bool :=
  match sep, s with
  | [], _ => true
  | c :: sep', d :: s' => (c =? d)%N && starts_with sep' s'
  | _ :: _, [] => false
  end.

(** StringIndexOf: the index of the first occurrence of [sep] in [s],
    [i] being the index of the front of [s]. *)
Fixpoint index_of (sep s : jsstring) (i : nat) : option nat :=
  if starts_with sep s then Some i
  else match s with
       | [] => None
       | _ :: s' => index_of sep s' (S i)
       end.

(** [s.split(sep)] for a separator string that is not empty: cut at the
    first occurrence, go on behind it.  Every cut shortens the string,
    so [length s] rounds suffice. *)
Fixpoint str_split_from (fuel : nat) (sep s : jsstring) : list jsstring :=
  match fuel with
  | 0 => [s]
  | S fuel' =>
      match index_of sep s 0 with
      | None => [s]
      | Some i => take i s :: str_split_from fuel' sep (drop (i + length sep) s)
      end
  end.

Definition str_split (sep s : jsstring) : list jsstring :=
  str_split_from (length s) sep s.

Fixpoint drop_spaces (s : jsstring) : jsstring :=
  match s with
  | c :: s' => if is_space c then drop_spaces s' else s
  | [] => []
  end.

(** [s.trim()]: white space and line terminators go from both ends. *)
Definition trim (s : jsstring) : jsstring :=
  rev (drop_spaces (rev (drop_spaces s))).

(** A link of the preview text: whether its parent has the class
    [name-variation], its title, the text of its [bdi] element (if it
    has one) and its address. *)
Record PreviewLink : Type := {
  name_variation : bool;
  link_title : jsstring;
  bdi_innerText : option jsstring;
  link_href : jsstring
}.

(** The separator of artist name and credited name in a title: a space,
    an en dash, a space. *)
Definition TITLE_SEPARATOR : jsstring := [0x20; 0x2013; 0x20]%N.

Definition ARTIST_PATH : jsstring := u16 "/artist/".

(** The callback of [map] in [getCharacterMBID]. *)
Definition link_artist (link : PreviewLink) : Completion PreviewArtist :=
  let name :=
    if name_variation link then
      match head (str_split TITLE_SEPARATOR (link_title link)) with
      | Some t => Normal (trim t)
      | None => Throw TypeError
      end
    else
      match bdi_innerText link with
      | Some t => Normal (trim t)
      | None => Throw TypeError
      end in
  match name with
  | Normal name =>
      Normal {| name := name;
                gid := str_split ARTIST_PATH (link_href link) !! 1 |}
  | Throw e => Throw e
  end.

(** [Array.from(links).map(callback)] *)
Fixpoint preview_artists (links : list PreviewLink)
  : Completion (list PreviewArtist) :=
  match links with
  | [] => Normal []
  | link :: links' =>
      match link_artist link with
      | Normal a =>
          match preview_artists links' with
          | Normal l => Normal (a :: l)
          | Throw e => Throw e
          end
      | Throw e => Throw e
      end
  end.

(** [getCharacterMBID(characterName)] on the links of the preview text. *)
Definition getCharacterMBID_links (links : list PreviewLink)
    (characterName : jsstring) : M (option jsstring) :=
  match preview_artists links with
  | Normal artists => getCharacterMBID artists characterName
  | Throw e => throw e
  end.

(** A link as the site renders one for an artist. *)
Definition sample_link : PreviewLink :=
  {| name_variation := false; link_title := u16 "Chara";
     bdi_innerText := Some (u16 " Chara ");
     link_href := u16 "https://musicbrainz.org/artist/c-1" |}.

(** ** The track tools *)

(** The words a pattern matches, as a language: what the matcher can
    consume. *)
Inductive in_star (L : jsstring -> Prop) : jsstring -> Prop :=
| in_star_nil : in_star L []
| in_star_app u v : L u -> in_star L v -> in_star L (u ++ v).

Fixpoint lang (r : regex) (w : jsstring) : Prop :=
  match r with
  | Eps => w = []
  | Cls p => exists c, w = [c] /\ p c = true
  | Cat r1 r2 => exists u v, w = u ++ v /\ lang r1 u /\ lang r2 v
  | Alt r1 r2 => lang r1 w \/ lang r2 w
  | Star r1 => in_star (lang r1) w
  | Opt r1 => w = [] \/ lang r1 w
  end.

(** [\w] *)
Definition is_word (c : N) : bool :=
  ((48 <=? c) && (c <=? 57) || (65 <=? c) && (c <=? 90)
   || (97 <=? c) && (c <=? 122) || (c =? 95))%N.

(** [[^\w\s\(]] *)
Definition is_symbol (c : N) : bool :=
  negb (is_word c || is_space c || (c =? LPAREN)%N).

(** [\S] *)
Definition non_space (c : N) : bool := negb (is_space c).

(** [r{1,3}], greedy. *)
Definition upto3 (r : regex) : regex := Cat r (Opt (Cat r (Opt r))).

(** [([^\w\s\(]{1,3} ?\S{1,3})], the group of the pattern. *)
Definition track_artist_group : regex :=
  Cat (upto3 (Cls is_symbol)) (Cat (Opt (uni SPACE)) (upto3 (Cls non_space))).

Definition KATA_SO : N := 0x30BD.
Definition KATA_RO : N := 0x30ED.

(** [Ver|Remix|ソロ], the disjunction of the lookahead. *)
Definition track_markers : regex :=
  Alt (lit "Ver") (Alt (lit "Remix") (Cat (uni KATA_SO) (uni KATA_RO))).

(** [\s\(?], the sequence of the lookbehind, in the order in which a
    lookbehind matches it: from the position backwards. *)
Definition track_behind : regex := Cat (Opt (uni LPAREN)) ws.

(** [/(?<=\s\(?)([^\w\s\(]{1,3} ?\S{1,3})\s?(?=Ver|Remix|ソロ)/i] at one
    position of the title: [before] are the code units before the
    position, the nearest first, [after] those from the position on.
    The result is the text of group 1. *)
Definition track_match_at (before after : jsstring) : option jsstring :=
  match re_match track_behind before Some with
  | None => None
  | Some _ =>
      match re_match track_artist_group after
              (fun s1 =>
                 re_match (Opt ws) s1
                   (fun s2 =>
                      match re_match track_markers s2 Some with
                      | Some _ => Some s1
                      | None => None
                      end)) with
      | Some s1 => Some (take (length after - length s1) after)
      | None => None
      end
  end.

(** The search of [exec] over the positions of the title. *)
Fixpoint track_search (before after : jsstring) : option jsstring :=
  match track_match_at before after with
  | Some a => Some a
  | None =>
      match after with
      | [] => None
      | c :: after' => track_search (c :: before) after'
      end
  end.

(** [title.match(TRACK_ARTIST_PATTERN)], then [artist[1]] when there is
    a match. *)
Definition guess_artist (title : jsstring) : option jsstring :=
  track_search [] title.





(** The code units a marker word begins with. *)
Definition marker_start (c : N) : bool :=
  existsb (N.eqb c) [86; 118; 82; 114; KATA_SO]%N.

(** * Properties *)

(** ** The matcher *)

(** A successful match splits the input into what it consumed and the
    rest it handed to the continuation. *)
Lemma re_match_consumes (r : regex) :
  forall s k x,
    re_match r s k = Some x ->
    exists pre rest,
      s = pre ++ rest /\ k rest = Some x /\ (nonnull r = true -> pre <> []).
Proof.
  induction r as [ | p | r1 IH1 r2 IH2 | r1 IH1 r2 IH2 | r1 IH1 | r1 IH1 ];
    intros s k x H; simpl in H.
  - exists [], s. repeat split; auto; discriminate.
  - destruct s as [ | c s']; [discriminate | ].
    destruct (p c); [ | discriminate ].
    exists [c], s'. repeat split; auto; discriminate.
  - apply IH1 in H as (pre1 & rest1 & -> & H1 & N1).
    apply IH2 in H1 as (pre2 & rest2 & -> & H2 & N2).
    exists (pre1 ++ pre2), rest2. rewrite <- app_assoc.
    repeat split; auto. simpl. intros N.
    apply orb_true_iff in N as [N | N];
      [ specialize (N1 N) | specialize (N2 N) ];
      intros E; apply app_eq_nil in E as [? ?]; contradiction.
  - destruct (re_match r1 s k) as [y | ] eqn:E1.
    + inversion H; subst y.
      apply IH1 in E1 as (pre & rest & -> & Hk & N1).
      exists pre, rest. repeat split; auto. simpl. intros N.
      apply andb_true_iff in N as [N _]. auto.
    + apply IH2 in H as (pre & rest & -> & Hk & N2).
      exists pre, rest. repeat split; auto. simpl. intros N.
      apply andb_true_iff in N as [_ N]. auto.
  - revert H. generalize (length s) at 1. intros n. revert s.
    induction n as [ | n IHn ]; intros s H.
    + exists [], s. repeat split; auto; discriminate.
    + match type of H with
      | match ?m with _ => _ end = _ => destruct m as [y | ] eqn:E1
      end.
      * inversion H; subst y.
        apply IH1 in E1 as (pre1 & rest1 & -> & Hk & _).
        destruct (length rest1 <? length (pre1 ++ rest1)); [ | discriminate ].
        apply IHn in Hk as (pre2 & rest2 & -> & Hk & _).
        exists (pre1 ++ pre2), rest2. rewrite <- app_assoc.
        repeat split; auto; discriminate.
      * exists [], s. repeat split; auto; discriminate.
  - match type of H with
    | match ?m with _ => _ end = _ => destruct m as [y | ] eqn:E1
    end.
    + inversion H; subst y.
      apply IH1 in E1 as (pre1 & rest1 & -> & Hk & _).
      destruct (length rest1 <? length (pre1 ++ rest1)); [ | discriminate ].
      exists pre1, rest1. repeat split; auto; discriminate.
    + exists [], s. repeat split; auto; discriminate.
Qed.

(** The matcher calls its continuation only on strings that are not
    longer than its input. *)
Lemma re_match_ext (r : regex) :
  forall s k k',
    (forall s', length s' <= length s -> k s' = k' s') ->
    re_match r s k = re_match r s k'.
Proof.
  induction r as [ | p | r1 IH1 r2 IH2 | r1 IH1 r2 IH2 | r1 IH1 | r1 IH1 ];
    intros s k k' H; simpl.
  - apply H. lia.
  - destruct s as [ | c s']; [ reflexivity | ].
    destruct (p c); [ | reflexivity ]. apply H. simpl. lia.
  - apply IH1. intros s' Hs'. apply IH2. intros s'' Hs''. apply H. lia.
  - rewrite (IH1 s k k' H), (IH2 s k k' H). reflexivity.
  - match goal with
    | |- ?f (length s) s = ?g (length s) s =>
        assert (Hloop : forall n s0, length s0 <= length s -> f n s0 = g n s0)
    end.
    { induction n as [ | n IHn ]; intros s0 Hs0.
      - apply H, Hs0.
      - match goal with
        | |- match re_match r1 s0 ?c with _ => _ end
             = match re_match r1 s0 ?c' with _ => _ end =>
            rewrite (IH1 s0 c c'), (H s0 Hs0); [ reflexivity | ]
        end.
        intros s' Hs'. cbv beta.
        destruct (length s' <? length s0); [ | reflexivity ].
        apply IHn. lia. }
    apply Hloop. lia.
  - match goal with
    | |- match re_match r1 s ?c with _ => _ end
         = match re_match r1 s ?c' with _ => _ end =>
        rewrite (IH1 s c c'), (H s (le_n _)); [ reflexivity | ]
    end.
    intros s' Hs'. cbv beta.
    destruct (length s' <? length s); [ | reflexivity ].
    apply H, Hs'.
Qed.

Lemma re_match_none (r : regex) s k :
  (forall s', length s' <= length s -> k s' = None) -> re_match r s k = None.
Proof.
  intros H. destruct (re_match r s k) as [x | ] eqn:E; [ | reflexivity ].
  apply re_match_consumes in E as (pre & rest & -> & Hk & _).
  rewrite H in Hk by (rewrite length_app; lia). discriminate.
Qed.

Lemma re_match_star (r : regex) s k :
  re_match (Star r) s k = star_loop r k (length s) s.
Proof.
  cbn [re_match]. generalize (length s). intros n. revert s.
  induction n as [ | n IHn ]; intros s; [ reflexivity | ].
  cbn [star_loop].
  match goal with
  | |- match re_match r s ?c with _ => _ end
       = match re_match r s ?c' with _ => _ end =>
      rewrite (re_match_ext r s c c'); [ reflexivity | ]
  end.
  intros s' _. cbv beta. rewrite IHn. reflexivity.
Qed.

(** The bound of [Star] is enough: a larger one changes nothing. *)
Lemma star_loop_fuel (r : regex) k n :
  forall s, length s <= n -> star_loop r k (S n) s = star_loop r k n s.
Proof.
  induction n as [ | n IHn ]; intros s Hs.
  - destruct s; [ | simpl in Hs; lia ].
    cbn [star_loop]. rewrite re_match_none; [ reflexivity | ].
    intros s' Hs'. cbv beta.
    destruct (Nat.ltb_spec (length s') (length (@nil N))); [ simpl in *; lia | reflexivity ].
  - cbn [star_loop].
    match goal with
    | |- match re_match r s ?c with _ => _ end
         = match re_match r s ?c' with _ => _ end =>
        rewrite (re_match_ext r s c c'); [ reflexivity | ]
    end.
    intros s' Hs'. cbv beta.
    destruct (Nat.ltb_spec (length s') (length s)); [ | reflexivity ].
    apply IHn. lia.
Qed.

Lemma star_loop_enough (r : regex) k n :
  forall s, length s <= n -> star_loop r k n s = re_match (Star r) s k.
Proof.
  intros s Hs. rewrite re_match_star.
  induction Hs as [ | n Hs IH ]; [ reflexivity | ].
  rewrite star_loop_fuel by exact Hs. exact IH.
Qed.

Lemma JOIN_PHRASE_PATTERN_nonnull : nonnull JOIN_PHRASE_PATTERN = true.
Proof. reflexivity. Qed.

Section Tokens.

Variable pattern : regex.
Hypothesis pattern_nonnull : nonnull pattern = true.

(** A match of a pattern that cannot match the empty string consumes
    at least one code unit, and never more than there are. *)
Lemma match_here_bounds s n :
  match_here pattern s = Some n -> 1 <= n <= length s.
Proof.
  unfold match_here. intros H.
  destruct (re_match pattern s Some) as [rest | ] eqn:E; [ | discriminate ].
  inversion H; subst n; clear H.
  apply re_match_consumes in E as (pre & rest' & -> & Hk & N).
  inversion Hk; subst rest'.
  specialize (N pattern_nonnull).
  rewrite length_app. destruct pre; [ contradiction | simpl; lia ].
Qed.

Lemma match_here_nil : match_here pattern [] = None.
Proof.
  destruct (match_here pattern []) as [n | ] eqn:E; [ | reflexivity ].
  apply match_here_bounds in E. simpl in E. lia.
Qed.

(** What [search] finds is the leftmost position with a match. *)
Lemma search_Some s i j e :
  search pattern s i = Some (j, e) ->
  exists k n,
    j = i + k /\ e = j + n /\ k <= length s /\
    match_here pattern (drop k s) = Some n /\
    forall k', k' < k -> match_here pattern (drop k' s) = None.
Proof.
  revert i. induction s as [ | c s IH ]; intros i H; simpl in H.
  - rewrite match_here_nil in H. discriminate.
  - destruct (match_here pattern (c :: s)) as [n | ] eqn:E.
    + inversion H; subst. exists 0, n.
      split_and!; auto; lia.
    + apply IH in H as (k & n & -> & -> & Hk & Hm & Hnone).
      exists (S k), n. split_and!; auto; try (simpl; lia).
      intros [ | k'] Hlt; [ exact E | ].
      simpl. apply Hnone. lia.
Qed.

Lemma search_None s i :
  search pattern s i = None ->
  forall k, match_here pattern (drop k s) = None.
Proof.
  revert i. induction s as [ | c s IH ]; intros i H k; simpl in H.
  - rewrite drop_nil. apply match_here_nil.
  - destruct (match_here pattern (c :: s)) as [n | ] eqn:E; [ discriminate | ].
    destruct k as [ | k]; [ exact E | ].
    simpl. eapply IH, H.
Qed.

End Tokens.

(** ** [split] and [matchAll] cut a string at the same places *)

Lemma substring_length str a b :
  a <= b -> b <= length str -> length (substring str a b) = b - a.
Proof.
  intros Hab Hb. unfold substring.
  rewrite length_take, length_drop. lia.
Qed.

Lemma substring_drop str a b :
  a <= b -> substring str a b ++ drop b str = drop a str.
Proof.
  intros Hab. unfold substring.
  rewrite <- (take_drop (b - a) (drop a str)) at 2.
  rewrite drop_drop. do 2 f_equal. lia.
Qed.

Lemma substring_to_end str a : substring str a (length str) = drop a str.
Proof.
  unfold substring. apply take_ge. rewrite length_drop. lia.
Qed.

Section Tokenization.

Variable pattern : regex.
Hypothesis pattern_nonnull : nonnull pattern = true.

(** Rounds of the loop of [split] over positions without a match. *)
Lemma split_loop_skip gap :
  forall fuel str p q,
    (forall k, k < gap -> match_here pattern (drop (q + k) str) = None) ->
    q + gap <= length str -> gap <= fuel ->
    split_loop pattern fuel str p q
    = split_loop pattern (fuel - gap) str p (q + gap).
Proof.
  induction gap as [ | gap IH ]; intros fuel str p q Hnone Hlen Hfuel.
  - rewrite Nat.sub_0_r, Nat.add_0_r. reflexivity.
  - destruct fuel as [ | fuel]; [ lia | ]. simpl.
    destruct (Nat.ltb_spec q (length str)) as [ _ | ? ]; [ | lia ].
    pose proof (Hnone 0 ltac:(lia)) as H0. rewrite Nat.add_0_r in H0.
    rewrite H0, IH; try lia.
    + f_equal. lia.
    + intros k Hk. replace (S q + k) with (q + S k) by lia.
      apply Hnone. lia.
Qed.

Lemma split_loop_none fuel :
  forall str p q,
    (forall k, match_here pattern (drop (q + k) str) = None) ->
    split_loop pattern fuel str p q = [substring str p (length str)].
Proof.
  induction fuel as [ | fuel IH ]; intros str p q Hnone; simpl; [ reflexivity | ].
  destruct (q <? length str); [ | reflexivity ].
  pose proof (Hnone 0) as H0. rewrite Nat.add_0_r in H0. rewrite H0.
  apply IH. intros k. replace (S q + k) with (q + S k) by lia. apply Hnone.
Qed.

(** The round of the loop of [split] at a match. *)
Lemma split_loop_hit fuel str p q n :
  match_here pattern (drop q str) = Some n ->
  p <= q ->
  split_loop pattern (S fuel) str p q
  = substring str p q :: split_loop pattern fuel str (q + n) (q + n).
Proof.
  intros Hm Hpq. pose proof (match_here_bounds _ pattern_nonnull _ _ Hm) as Hn.
  rewrite length_drop in Hn. simpl.
  destruct (Nat.ltb_spec q (length str)) as [ _ | ? ]; [ | lia ].
  rewrite Hm. cbv zeta.
  rewrite Nat.min_l by lia.
  destruct (Nat.eqb_spec (q + n) p) as [ ? | _ ]; [ lia | reflexivity ].
Qed.

Lemma tokens_of_split_matchAll m :
  forall str p f1 f2,
    length str - p = m -> p <= length str ->
    2 * (length str - p) <= f1 -> length str - p < f2 ->
    tokens pattern str p
      (split_loop pattern f1 str p p) (matchAll_from pattern f2 str p).
Proof.
  induction (lt_wf m) as [m _ IH].
  intros str p f1 f2 Hm Hp Hf1 Hf2.
  destruct f2 as [ | f2]; [ lia | ].
  simpl. unfold exec.
  destruct (Nat.ltb_spec (length str) p) as [ ? | _ ]; [ lia | ].
  destruct (search pattern (drop p str) p) as [[j e] | ] eqn:Es.
  - apply (search_Some _ pattern_nonnull) in Es
      as (k & n & -> & -> & Hk & Hmatch & Hnone).
    rewrite length_drop in Hk. rewrite drop_drop in Hmatch.
    replace (k + p) with (p + k) in Hmatch by lia.
    pose proof (match_here_bounds _ pattern_nonnull _ _ Hmatch) as Hn.
    rewrite length_drop in Hn.
    rewrite (split_loop_skip k) by
      (try lia; intros k' Hk'; specialize (Hnone k' Hk');
       rewrite drop_drop in Hnone;
       replace (k' + p) with (p + k') in Hnone by lia; exact Hnone).
    destruct (f1 - k) as [ | f1'] eqn:Ef1; [ lia | ].
    rewrite (split_loop_hit _ _ _ _ _ Hmatch) by lia.
    destruct (Nat.eqb_spec (p + k + n) (p + k)) as [ ? | _ ]; [ lia | ].
    apply tokens_next; try lia.
    + intros k' Hk'. specialize (Hnone k' ltac:(lia)).
      rewrite drop_drop in Hnone.
      replace (k' + p) with (p + k') in Hnone by lia. exact Hnone.
    + rewrite Hmatch. f_equal. lia.
    + eapply IH; [ | reflexivity | | | ]; lia.
  - rewrite split_loop_none.
    + apply tokens_last; [ lia | ].
      intros k. pose proof (search_None _ pattern_nonnull _ _ Es k) as H.
      rewrite drop_drop in H.
      replace (k + p) with (p + k) in H by lia. exact H.
    + intros k. pose proof (search_None _ pattern_nonnull _ _ Es k) as H.
      rewrite drop_drop in H.
      replace (k + p) with (p + k) in H by lia. exact H.
Qed.

(** On a string that is not empty, [split] and [matchAll] return the
    pieces and the matches of one and the same cutting. *)
Lemma tokens_split_matchAll str :
  str <> [] ->
  tokens pattern str 0 (split pattern str) (matchAll pattern str).
Proof.
  intros Hne. unfold split, matchAll.
  destruct str as [ | c str]; [ contradiction | ].
  eapply tokens_of_split_matchAll; [ reflexivity | | | ]; simpl; lia.
Qed.

(** The loop of the parser over such a cutting records every match,
    and the credits spell the string. *)
Lemma tokens_credits_text str p artists matches :
  tokens pattern str p artists matches ->
  credits_text (credits_loop p artists matches) = drop p str.
Proof.
  induction 1 as [ p Hp Hnone | p i e artists matches Hpi Hie He Hnone Hm Ht IH ].
  - simpl. unfold credits_text, credit_text. simpl.
    rewrite !app_nil_r. apply substring_to_end.
  - simpl. rewrite substring_length by lia.
    replace (p + (i - p)) with i by lia.
    rewrite Nat.eqb_refl.
    rewrite substring_length by lia.
    replace (i + (e - i)) with e by lia.
    unfold credits_text in *. simpl. rewrite IH.
    unfold credit_text. simpl.
    rewrite <- app_assoc, substring_drop by lia.
    apply substring_drop. lia.
Qed.

(** A string has one cutting only, so the results of the two loops do
    not depend on the fuel once there is enough of it. *)
Lemma tokens_functional str p artists matches :
  tokens pattern str p artists matches ->
  forall artists' matches',
    tokens pattern str p artists' matches' ->
    artists = artists' /\ matches = matches'.
Proof.
  induction 1 as [ p Hp Hnone | p i e artists matches Hpi Hie He Hnone Hm Ht IH ];
    intros artists' matches' H'; inversion H'; subst.
  - auto.
  - match goal with
    | Hm' : match_here pattern (drop ?i' str) = Some _ |- _ =>
        specialize (Hnone (i' - p));
        replace (p + (i' - p)) with i' in Hnone by lia; congruence
    end.
  - match goal with
    | Hnone' : forall k, match_here pattern (drop (p + k) str) = None |- _ =>
        specialize (Hnone' (i - p));
        replace (p + (i - p)) with i in Hnone' by lia; congruence
    end.
  - match goal with
    | Hm' : match_here pattern (drop ?i' str) = Some (?e' - ?i'),
      Hn' : forall k, k < ?i' - p -> _,
      Ht' : tokens pattern str ?e' _ _ |- _ =>
        assert (i = i') as <-;
        [ destruct (Nat.lt_trichotomy i i') as [Hlt | [Heq | Hgt]];
          [ specialize (Hn' (i - p) ltac:(lia));
            replace (p + (i - p)) with i in Hn' by lia; congruence
          | exact Heq
          | specialize (Hnone (i' - p) ltac:(lia));
            replace (p + (i' - p)) with i' in Hnone by lia; congruence ]
        | assert (e = e') as <- by (rewrite Hm in Hm'; inversion Hm'; lia);
          destruct (IH _ _ Ht') as [-> ->]; auto ]
    end.
Qed.

Lemma split_matchAll_fuel str f1 f2 :
  str <> [] -> 2 * length str <= f1 -> length str < f2 ->
  split_loop pattern f1 str 0 0 = split pattern str /\
  matchAll_from pattern f2 str 0 = matchAll pattern str.
Proof.
  intros Hne Hf1 Hf2.
  eapply tokens_functional.
  - eapply tokens_of_split_matchAll; [ reflexivity | | | ]; lia.
  - apply tokens_split_matchAll, Hne.
Qed.

End Tokenization.

(** ** The parser *)

Lemma credit_first_text credits :
  credits_text (credit_first credits) = credits_text credits.
Proof. destruct credits as [ | c rest]; reflexivity. Qed.

Lemma credit_first_lookup credits i c :
  credit_first credits !! i = Some c ->
  exists c0,
    credits !! i = Some c0 /\ artist c = artist c0 /\
    joinPhrase c = joinPhrase c0.
Proof.
  destruct credits as [ | c0 rest]; [ discriminate | ].
  destruct i as [ | i]; simpl; intros H.
  - inversion H; subst c. exists c0. auto.
  - exists c. auto.
Qed.

Lemma credit_first_take_text credits i :
  credits_text (take i (credit_first credits)) = credits_text (take i credits).
Proof.
  destruct credits as [ | c0 rest]; [ reflexivity | ].
  destruct i as [ | i]; reflexivity.
Qed.

Lemma credits_loop_creditedAs artists :
  forall pos matches,
    Forall (fun c => creditedAs c = None) (credits_loop pos artists matches).
Proof.
  induction artists as [ | a artists IH ]; intros pos matches; simpl.
  - constructor.
  - destruct matches as [ | m matches]; [ constructor; auto | ].
    destruct (index m =? pos + length a); constructor; auto.
Qed.

(** The round of the loop for the credit at [i]: its match is recorded
    exactly when it starts where the text of the credits so far, and
    then the artist, end. *)
Lemma credits_loop_round artists :
  forall pos matches i c m,
    credits_loop pos artists matches !! i = Some c ->
    matches !! i = Some m ->
    joinPhrase c =
      if index m =? pos
           + length (credits_text (take i (credits_loop pos artists matches)))
           + length (artist c)
      then Some (matched m) else None.
Proof.
  induction artists as [ | a artists IH ]; intros pos matches i c m Hc Hm.
  - discriminate.
  - destruct matches as [ | m0 matches]; [ discriminate | ].
    simpl in Hc |- *.
    destruct i as [ | i].
    + simpl in Hm. inversion Hm; subst m0; clear Hm.
      destruct (Nat.eqb_spec (index m) (pos + length a)) as [E | E];
        simpl in Hc; inversion Hc; subst c; simpl;
        rewrite Nat.add_0_r.
      * rewrite E, Nat.eqb_refl. reflexivity.
      * destruct (Nat.eqb_spec (index m) (pos + length a)); [ contradiction | ].
        reflexivity.
    + simpl in Hm.
      destruct (index m0 =? pos + length a); simpl in Hc |- *;
        rewrite (IH _ _ _ _ _ Hc Hm);
        unfold credits_text; simpl; rewrite !length_app;
        unfold credit_text; simpl; rewrite ?length_app, ?app_nil_r;
        match goal with
        | |- (if _ =? ?x then _ else _) = (if _ =? ?y then _ else _) =>
            replace x with y by (simpl; lia)
        end; reflexivity.
Qed.

(** C1. Round trip: for every string [s], the artists of the credits of
    [parseArtistCreditsString s], each followed by its join phrase (the
    empty string when there is none), spell [s] again. *)
Theorem parse_roundtrip (s : jsstring) :
  credits_text (parseArtistCreditsString s) = s.
Proof.
  unfold parseArtistCreditsString.
  destruct s as [ | c s]; [ reflexivity | ].
  cbn [truthy]. rewrite credit_first_text.
  apply (tokens_credits_text JOIN_PHRASE_PATTERN (c :: s) 0).
  apply tokens_split_matchAll; [ reflexivity | discriminate ].
Qed.

(** C2. On ["A(CV.B), C(CV.D)"] the parser returns five credits, not four:
    the four of the example in its documentation and then a credit whose
    artist is the empty string, since [split] ends with an empty piece
    when the string ends with a match. *)
Theorem parse_cv_example_trailing_credit :
  parseArtistCreditsString (u16 "A(CV.B), C(CV.D)")
  = [ {| artist := u16 "A"; creditedAs := Some (u16 "A");
         joinPhrase := Some (u16 "(CV.") |};
      {| artist := u16 "B"; creditedAs := None;
         joinPhrase := Some (u16 "), ") |};
      {| artist := u16 "C"; creditedAs := None;
         joinPhrase := Some (u16 "(CV.") |};
      {| artist := u16 "D"; creditedAs := None;
         joinPhrase := Some (u16 ")") |};
      {| artist := []; creditedAs := None; joinPhrase := None |} ].
Proof. vm_compute. reflexivity. Qed.

(** C3. In the loop of the parser, run on any artists and matches, and
    in [parseArtistCreditsString] itself: the text of the match taken
    for a credit is that credit's join phrase if and only if the index
    of the match is the position where the credit's artist ends (the
    length of the text of the credits before it plus that of its
    artist); when the two differ the credit has no join phrase. *)
Theorem join_phrase_recorded_iff_aligned :
  (forall pos artists matches i c m,
      credits_loop pos artists matches !! i = Some c ->
      matches !! i = Some m ->
      let ends :=
        pos + length (credits_text (take i (credits_loop pos artists matches)))
        + length (artist c) in
      (joinPhrase c = Some (matched m) <-> index m = ends) /\
      (index m <> ends -> joinPhrase c = None))
  /\
  (forall s i c m,
      parseArtistCreditsString s !! i = Some c ->
      matchAll JOIN_PHRASE_PATTERN s !! i = Some m ->
      let ends :=
        length (credits_text (take i (parseArtistCreditsString s)))
        + length (artist c) in
      (joinPhrase c = Some (matched m) <-> index m = ends) /\
      (index m <> ends -> joinPhrase c = None)).
Proof.
  assert (Hloop : forall pos artists matches i c m,
      credits_loop pos artists matches !! i = Some c ->
      matches !! i = Some m ->
      let ends :=
        pos + length (credits_text (take i (credits_loop pos artists matches)))
        + length (artist c) in
      (joinPhrase c = Some (matched m) <-> index m = ends) /\
      (index m <> ends -> joinPhrase c = None)).
  { intros pos artists matches i c m Hc Hm ends.
    pose proof (credits_loop_round artists pos matches i c m Hc Hm) as H.
    fold ends in H. rewrite H.
    destruct (Nat.eqb_spec (index m) ends) as [E | E].
    - split; [ split; auto | contradiction ].
    - split; [ split; [ discriminate | contradiction ] | reflexivity ]. }
  split; [ exact Hloop | ].
  intros s i c m Hc Hm. unfold parseArtistCreditsString in *.
  destruct (truthy s); [ | discriminate ].
  apply credit_first_lookup in Hc as (c0 & Hc0 & Ha & Hj).
  rewrite credit_first_take_text, Ha, Hj.
  exact (Hloop 0 _ _ i c0 m Hc0 Hm).
Qed.

Lemma join_phrase_recorded_iff_aligned_witness :
  (joinPhrase sample_credit = Some (matched sample_match)
   <-> index sample_match = 1) /\
  (index sample_match <> 1 -> joinPhrase sample_credit = None).
Proof.
  exact (proj1 join_phrase_recorded_iff_aligned 0 [u16 "A"; u16 "B"]
           [sample_match] 0 sample_credit sample_match eq_refl eq_refl).
Defined.

(** C4. Whenever [parseArtistCreditsString] returns credits, the first
    one is credited as its artist, and the parser gives no other credit
    a [creditedAs]. *)
Theorem first_credit_creditedAs (s : jsstring) (c : ArtistCredit)
    (rest : list ArtistCredit) :
  parseArtistCreditsString s = c :: rest ->
  creditedAs c = Some (artist c) /\
  Forall (fun c' => creditedAs c' = None) rest.
Proof.
  unfold parseArtistCreditsString. destruct (truthy s); [ | discriminate ].
  pose proof (credits_loop_creditedAs (split JOIN_PHRASE_PATTERN s) 0
                (matchAll JOIN_PHRASE_PATTERN s)) as HF.
  destruct (credits_loop 0 _ _) as [ | c0 rest0]; [ discriminate | ].
  simpl. intros H. inversion H; subst c rest; clear H.
  split; [ reflexivity | ].
  inversion HF; assumption.
Qed.

Lemma first_credit_creditedAs_witness :
  creditedAs (set_creditedAs (u16 "A") sample_credit)
  = Some (artist (set_creditedAs (u16 "A") sample_credit)) /\
  Forall (fun c' => creditedAs c' = None) [new_credit (u16 "B")].
Proof.
  apply (first_credit_creditedAs (u16 "A, B")).
  vm_compute. reflexivity.
Defined.

(** ** Writes to the inputs *)

Lemma wrote_same pg : wrote (inputs pg) (dispatched pg) pg = pg.
Proof. destruct pg; reflexivity. Qed.

Lemma wrote_wrote l1 d1 l2 d2 pg :
  wrote l2 d2 (wrote l1 d1 pg) = wrote l2 d2 pg.
Proof. reflexivity. Qed.

Lemma written_same el : written el (Some (value el)) = el.
Proof.
  destruct el as [v d]. unfold written. simpl.
  destruct (truthy v && negb d); reflexivity.
Qed.

Lemma written_falsy el v : truthy_opt v = false -> written el v = el.
Proof.
  destruct v as [s | ]; [ | reflexivity ]. simpl. intros ->. reflexivity.
Qed.

Lemma write_to_length input v l : length (write_to input v l) = length l.
Proof.
  unfold write_to. destruct input as [i | ]; [ | reflexivity ].
  destruct (l !! i); [ apply length_insert | reflexivity ].
Qed.

Lemma write_to_lookup_ne input v l k :
  input <> Some k -> write_to input v l !! k = l !! k.
Proof.
  unfold write_to. intros Hne. destruct input as [i | ]; [ | reflexivity ].
  destruct (l !! i); [ | reflexivity ].
  apply list_lookup_insert_ne. congruence.
Qed.

Lemma write_to_lookup_eq i v l el :
  l !! i = Some el -> write_to (Some i) v l !! i = Some (written el v).
Proof.
  unfold write_to. intros H. rewrite H.
  apply list_lookup_insert_eq. eapply lookup_lt_Some, H.
Qed.

Lemma write_to_falsy input v l : truthy_opt v = false -> write_to input v l = l.
Proof.
  unfold write_to. intros Hv. destruct input as [i | ]; [ | reflexivity ].
  destruct (l !! i) as [el | ] eqn:E; [ | reflexivity ].
  rewrite written_falsy by assumption. apply list_insert_id, E.
Qed.

Lemma write_to_same i l el :
  l !! i = Some el -> write_to (Some i) (Some (value el)) l = l.
Proof.
  unfold write_to. intros H. rewrite H, written_same. apply list_insert_id, H.
Qed.

Lemma setInputValue_spec input v pg :
  truthy v = true ->
  exists d,
    setInputValue input v pg
    = (Normal tt, wrote (write_to input (Some v) (inputs pg)) d pg).
Proof.
  intros Hv. unfold setInputValue, write_to.
  destruct input as [i | ];
    [ | exists (dispatched pg); rewrite wrote_same; reflexivity ].
  destruct (inputs pg !! i) as [el | ] eqn:E;
    [ | exists (dispatched pg); rewrite wrote_same; reflexivity ].
  unfold written. rewrite Hv.
  destruct (disabled el) eqn:Ed; simpl.
  - exists (dispatched pg).
    rewrite list_insert_id by assumption. rewrite wrote_same. reflexivity.
  - eexists. reflexivity.
Qed.

Lemma update_key_spec g key v pg :
  exists d,
    update_key (Some g) key v pg
    = (Normal tt, wrote (write_to (key g) v (inputs pg)) d pg).
Proof.
  unfold update_key. destruct v as [s | ].
  - destruct (truthy s) eqn:Hs.
    + apply setInputValue_spec, Hs.
    + exists (dispatched pg).
      rewrite write_to_falsy by exact Hs. rewrite wrote_same. reflexivity.
  - exists (dispatched pg).
    rewrite write_to_falsy by reflexivity. rewrite wrote_same. reflexivity.
Qed.

(** Without a group of inputs a round throws for a truthy value and does
    nothing otherwise. *)
Lemma update_key_None key v pg :
  update_key None key v pg
  = (if truthy_opt v then Throw TypeError else Normal tt, pg).
Proof.
  unfold update_key. destruct v as [s | ]; [ | reflexivity ].
  simpl. destruct (truthy s); reflexivity.
Qed.

Lemma updateInputs_spec g credit pg :
  exists d,
    updateInputs (Some g) credit pg
    = (Normal tt,
       wrote (write_to (joinPhraseInput g) (joinPhrase credit)
                (write_to (creditedAsInput g) (creditedAs credit)
                   (write_to (artistInput g) (Some (artist credit))
                      (inputs pg)))) d pg).
Proof.
  unfold updateInputs, bind.
  destruct (update_key_spec g artistInput (Some (artist credit)) pg) as [d1 ->].
  destruct (update_key_spec g creditedAsInput (creditedAs credit)
              (wrote (write_to (artistInput g) (Some (artist credit)) (inputs pg)) d1 pg))
    as [d2 ->].
  match goal with
  | |- context [update_key (Some g) joinPhraseInput ?v ?q] =>
      destruct (update_key_spec g joinPhraseInput v q) as [d3 ->]
  end.
  exists d3. reflexivity.
Qed.

Lemma updateInputs_None credit pg :
  snd (updateInputs None credit pg) = pg.
Proof.
  unfold updateInputs, bind. rewrite !update_key_None.
  destruct (truthy_opt (Some (artist credit))); [ reflexivity | ].
  destruct (truthy_opt (creditedAs credit)); [ reflexivity | ].
  destruct (truthy_opt (joinPhrase credit)); reflexivity.
Qed.

(** ** The groups of inputs *)

Lemma getInputs_0 pg :
  getInputs 0 pg
  = group (length (inputs pg)) <$> seq 0 (groups (length (inputs pg))).
Proof. unfold getInputs, slice_start. simpl. reflexivity. Qed.

Lemma getInputs_0_length pg :
  length (getInputs 0 pg) = groups (length (inputs pg)).
Proof. rewrite getInputs_0, length_fmap, length_seq. reflexivity. Qed.

Lemma getInputs_0_lookup pg i :
  i < groups (length (inputs pg)) ->
  getInputs 0 pg !! i = Some (group (length (inputs pg)) i).
Proof.
  intros Hi. rewrite getInputs_0, list_lookup_fmap, lookup_seq_lt by assumption.
  reflexivity.
Qed.

Lemma getInputs_0_lookup_Some pg i g :
  getInputs 0 pg !! i = Some g ->
  i < groups (length (inputs pg)) /\ g = group (length (inputs pg)) i.
Proof.
  intros H. pose proof (lookup_lt_Some _ _ _ H) as Hi.
  rewrite getInputs_0_length in Hi.
  rewrite getInputs_0_lookup in H by assumption.
  inversion H. auto.
Qed.

(** The last group. *)
Lemma getInputs_last pg :
  head (getInputs (-1) pg)
  = if groups (length (inputs pg)) =? 0 then None
    else Some (group (length (inputs pg)) (groups (length (inputs pg)) - 1)).
Proof.
  unfold getInputs. set (n := length (inputs pg)).
  unfold slice_start. simpl.
  replace (Z.to_nat (Z.max (Z.of_nat (groups n) + -1) 0)) with (groups n - 1)
    by lia.
  rewrite head_lookup, lookup_drop, Nat.add_0_r.
  rewrite list_lookup_fmap.
  destruct (Nat.eqb_spec (groups n) 0) as [E | E].
  - rewrite E. reflexivity.
  - rewrite lookup_seq_lt by lia. reflexivity.
Qed.

(** [at] with a negative index counts from the end. *)
Lemma at_from_end {A} (l : list A) (k : nat) :
  1 <= k <= length l -> at_ l (- Z.of_nat k) = l !! (length l - k).
Proof.
  intros Hk. unfold at_.
  destruct (Z.ltb_spec (- Z.of_nat k) 0) as [ _ | ? ]; [ | lia ].
  destruct (Z.ltb_spec (Z.of_nat (length l) + - Z.of_nat k) 0) as [ ? | _ ]; [ lia | ].
  f_equal. lia.
Qed.

Lemma at_Some {A} (l : list A) (z : Z) (x : A) :
  at_ l z = Some x -> exists i, l !! i = Some x.
Proof.
  unfold at_. destruct (_ <? 0)%Z; [ discriminate | ]. eauto.
Qed.

Lemma elem_Some n i k : elem n i = Some k -> k = i /\ i < n.
Proof.
  unfold elem. destruct (Nat.ltb_spec i n) as [Hlt | _]; [ | discriminate ].
  intros H. inversion H. split; [ reflexivity | lia ].
Qed.

Lemma group_inputs n i k :
  is_input_of (group n i) k -> i * 3 <= k < i * 3 + 3 /\ k < n.
Proof.
  unfold is_input_of, group, SIZE. simpl.
  intros [H | [H | H]]; apply elem_Some in H; lia.
Qed.

(** A group with its three inputs. *)
Lemma group_complete n i :
  i * 3 + 2 < n ->
  group n i = {| artistInput := Some (i * 3);
                 creditedAsInput := Some (i * 3 + 1);
                 joinPhraseInput := Some (i * 3 + 2) |}.
Proof.
  intros H. unfold group, elem, SIZE.
  destruct (Nat.ltb_spec (i * 3) n); [ | lia ].
  destruct (Nat.ltb_spec (i * 3 + 1) n); [ | lia ].
  destruct (Nat.ltb_spec (i * 3 + 2) n); [ | lia ].
  reflexivity.
Qed.

Lemma groups_complete m : groups (3 * m) = m.
Proof.
  unfold groups, SIZE. simpl Nat.sub.
  rewrite Nat.mul_comm, Nat.div_add_l by lia. simpl. lia.
Qed.

(** ** Frames *)

Lemma frame_refl P pg : frame P pg pg.
Proof. unfold frame. auto 10. Qed.

Lemma frame_trans P pg1 pg2 pg3 :
  frame P pg1 pg2 -> frame P pg2 pg3 -> frame P pg1 pg3.
Proof.
  unfold frame. intros (L1 & F1 & C1 & A1 & T1 & U1) (L2 & F2 & C2 & A2 & T2 & U2).
  split_and!; try congruence.
  intros k Hk. rewrite F2, F1; auto.
Qed.

Lemma updateInputs_frame (P : nat -> Prop) inputs credit pg :
  (forall g k, inputs = Some g -> is_input_of g k -> ~ P k) ->
  frame P pg (snd (updateInputs inputs credit pg)).
Proof.
  intros HP. destruct inputs as [g | ].
  - destruct (updateInputs_spec g credit pg) as [d ->]. simpl.
    unfold frame. simpl. rewrite !write_to_length.
    split_and!; try reflexivity.
    intros k Hk.
    rewrite !write_to_lookup_ne; [ reflexivity | | | ];
      intros E; apply (HP g k eq_refl); unfold is_input_of; auto.
  - rewrite updateInputs_None. apply frame_refl.
Qed.

Lemma read_value_state input pg : snd (read_value input pg) = pg.
Proof.
  unfold read_value. destruct input as [i | ]; [ | reflexivity ].
  destruct (inputs pg !! i); reflexivity.
Qed.

Lemma read_credit_state g pg : snd (read_credit g pg) = pg.
Proof.
  unfold read_credit, bind, read_value, ret.
  destruct (artistInput g) as [a | ]; [ | reflexivity ].
  destruct (inputs pg !! a); [ | reflexivity ].
  destruct (creditedAsInput g) as [c | ]; [ | reflexivity ].
  destruct (inputs pg !! c); [ | reflexivity ].
  destruct (joinPhraseInput g) as [j | ]; [ | reflexivity ].
  destruct (inputs pg !! j); reflexivity.
Qed.

Lemma update_frame pg idx f g :
  at_ (getInputs 0 pg) idx = Some g ->
  frame (fun k => ~ is_input_of g k) pg (snd (update idx f pg)).
Proof.
  intros H. unfold update. rewrite H. unfold bind.
  pose proof (read_credit_state g pg) as Hs.
  destruct (read_credit g pg) as [[old | e] pg1]; simpl in Hs; subst pg1.
  - apply updateInputs_frame. intros g' k E Hin HP.
    inversion E; subst g'. contradiction.
  - apply frame_refl.
Qed.

Lemma update_complete pg idx f i ea ec ej :
  at_ (getInputs 0 pg) idx = Some (group (length (inputs pg)) i) ->
  inputs pg !! (i * 3) = Some ea ->
  inputs pg !! (i * 3 + 1) = Some ec ->
  inputs pg !! (i * 3 + 2) = Some ej ->
  let new := f {| artist := value ea; creditedAs := Some (value ec);
                  joinPhrase := Some (value ej) |} in
  exists d,
    update idx f pg
    = (Normal tt,
       wrote (write_to (Some (i * 3 + 2)) (joinPhrase new)
                (write_to (Some (i * 3 + 1)) (creditedAs new)
                   (write_to (Some (i * 3)) (Some (artist new)) (inputs pg))))
             d pg).
Proof.
  intros Hat Ha Hc Hj new. unfold update. rewrite Hat.
  rewrite group_complete by (eapply lookup_lt_Some, Hj).
  unfold bind at 1. unfold read_credit, bind, read_value, ret.
  cbn [artistInput creditedAsInput joinPhraseInput].
  rewrite Ha, Hc, Hj.
  match goal with
  | |- context [updateInputs (Some ?g) ?c pg] =>
      destruct (updateInputs_spec g c pg) as [d ->]
  end.
  exists d. reflexivity.
Qed.

Lemma write_to_lookup_same i v l :
  write_to (Some i) v l !! i = (fun el => written el v) <$> l !! i.
Proof.
  destruct (l !! i) as [el | ] eqn:E.
  - rewrite (write_to_lookup_eq _ _ _ _ E). reflexivity.
  - unfold write_to. rewrite E. exact E.
Qed.

Lemma fmap_written_falsy v (o : option HTMLInputElement) :
  truthy_opt v = false -> (fun el => written el v) <$> o = o.
Proof.
  intros Hv. destruct o as [el | ]; [ | reflexivity ].
  cbn [fmap option_fmap option_map]. rewrite written_falsy by exact Hv.
  reflexivity.
Qed.

Lemma group_of_elem pg sliceIndex g :
  g ∈ getInputs sliceIndex pg -> exists i, g = group (length (inputs pg)) i.
Proof.
  unfold getInputs. intros H.
  apply list_elem_of_lookup in H as [i H].
  rewrite lookup_drop, list_lookup_fmap in H.
  destruct (seq 0 _ !! _) as [i' | ]; [ | discriminate ].
  inversion H. eauto.
Qed.

(** What [updateInputs] leaves in the inputs of a group of the page. *)
Lemma updateInputs_lookup n i credit pg :
  let g := group n i in
  let l' := inputs (snd (updateInputs (Some g) credit pg)) in
  (forall k, artistInput g = Some k ->
     l' !! k = (fun el => written el (Some (artist credit))) <$> inputs pg !! k) /\
  (forall k, creditedAsInput g = Some k ->
     l' !! k = (fun el => written el (creditedAs credit)) <$> inputs pg !! k) /\
  (forall k, joinPhraseInput g = Some k ->
     l' !! k = (fun el => written el (joinPhrase credit)) <$> inputs pg !! k).
Proof.
  intros g l'. subst l'.
  destruct (updateInputs_spec g credit pg) as [d ->].
  cbn [snd inputs wrote]. subst g. unfold group, SIZE.
  cbn [artistInput creditedAsInput joinPhraseInput].
  split_and!; intros k Hk; pose proof (elem_Some _ _ _ Hk) as [-> Hlt].
  - do 2 rewrite write_to_lookup_ne by (intros E; apply elem_Some in E; lia).
    rewrite Hk. apply write_to_lookup_same.
  - rewrite write_to_lookup_ne by (intros E; apply elem_Some in E; lia).
    rewrite Hk, write_to_lookup_same.
    rewrite write_to_lookup_ne by (intros E; apply elem_Some in E; lia).
    reflexivity.
  - rewrite Hk, write_to_lookup_same.
    rewrite !write_to_lookup_ne by (intros E; apply elem_Some in E; lia).
    reflexivity.
Qed.

Lemma read_credit_complete g pg a c j ea ec ej :
  artistInput g = Some a -> creditedAsInput g = Some c ->
  joinPhraseInput g = Some j ->
  inputs pg !! a = Some ea -> inputs pg !! c = Some ec ->
  inputs pg !! j = Some ej ->
  read_credit g pg
  = (Normal {| artist := value ea; creditedAs := Some (value ec);
               joinPhrase := Some (value ej) |}, pg).
Proof.
  intros Ga Gc Gj Ha Hc Hj.
  unfold read_credit, bind, read_value, ret.
  rewrite Ga, Ha, Gc, Hc, Gj, Hj. reflexivity.
Qed.

Lemma update_unfold pg idx f g old :
  at_ (getInputs 0 pg) idx = Some g ->
  read_credit g pg = (Normal old, pg) ->
  update idx f pg = updateInputs (Some g) (f old) pg.
Proof.
  intros Hat Hr. unfold update. rewrite Hat. unfold bind. rewrite Hr.
  reflexivity.
Qed.

(** C5. [update(i, f)] is a read-modify-write of the slot at [i].  A
    negative index counts from the end.  Without a slot at [i] the page
    stays as it is, with no write at all.  With a slot, the length of
    the list, every input outside the slot, and the rest of the page
    stay as they are; and when the slot has its three inputs, [f] is
    applied to the credit of their three values and each input is
    written only if [f]'s result has a non-empty value for it (and the
    input is enabled), keeping its value otherwise. *)
Theorem update_read_modify_write (pg : Page) (idx : Z)
    (f : ArtistCredit -> ArtistCredit) :
  (forall k, 1 <= k <= length (getInputs 0 pg) ->
     at_ (getInputs 0 pg) (- Z.of_nat k)
     = getInputs 0 pg !! (length (getInputs 0 pg) - k)) /\
  (at_ (getInputs 0 pg) idx = None -> update idx f pg = (Normal tt, pg)) /\
  (forall g,
     at_ (getInputs 0 pg) idx = Some g ->
     let pg' := exec_on (update idx f) pg in
     frame (fun k => ~ is_input_of g k) pg pg' /\
     forall a c j ea ec ej,
       artistInput g = Some a -> creditedAsInput g = Some c ->
       joinPhraseInput g = Some j ->
       inputs pg !! a = Some ea -> inputs pg !! c = Some ec ->
       inputs pg !! j = Some ej ->
       let new := f {| artist := value ea; creditedAs := Some (value ec);
                       joinPhrase := Some (value ej) |} in
       fst (update idx f pg) = Normal tt /\
       inputs pg' !! a = Some (written ea (Some (artist new))) /\
       inputs pg' !! c = Some (written ec (creditedAs new)) /\
       inputs pg' !! j = Some (written ej (joinPhrase new))).
Proof.
  split_and!.
  - intros k Hk. apply at_from_end, Hk.
  - intros H. unfold update. rewrite H. reflexivity.
  - intros g Hat pg'. split; [ apply update_frame, Hat | ].
    intros a c j ea ec ej Ga Gc Gj Ha Hc Hj new.
    pose proof (read_credit_complete g pg a c j ea ec ej Ga Gc Gj Ha Hc Hj) as Hr.
    subst pg'. unfold exec_on.
    rewrite (update_unfold pg idx f g _ Hat Hr). fold new.
    destruct (at_Some _ _ _ Hat) as [i Hi].
    apply getInputs_0_lookup_Some in Hi as [_ ->].
    destruct (updateInputs_lookup (length (inputs pg)) i new pg) as (La & Lc & Lj).
    split_and!.
    + destruct (updateInputs_spec (group (length (inputs pg)) i) new pg) as [d ->].
      reflexivity.
    + rewrite (La a Ga), Ha. reflexivity.
    + rewrite (Lc c Gc), Hc. reflexivity.
    + rewrite (Lj j Gj), Hj. reflexivity.
Qed.

(** C8. A falsy value leaves the field as it is: for a group of inputs
    of the page, [updateInputs] leaves an input untouched when the
    credit's value for it is not there or is the empty string; and so
    does [update] when the updater's result is so. *)
Theorem falsy_value_leaves_field :
  (forall pg sliceIndex g credit,
     g ∈ getInputs sliceIndex pg ->
     let pg' := exec_on (updateInputs (Some g) credit) pg in
     (truthy (artist credit) = false ->
      forall k, artistInput g = Some k -> inputs pg' !! k = inputs pg !! k) /\
     (truthy_opt (creditedAs credit) = false ->
      forall k, creditedAsInput g = Some k -> inputs pg' !! k = inputs pg !! k) /\
     (truthy_opt (joinPhrase credit) = false ->
      forall k, joinPhraseInput g = Some k -> inputs pg' !! k = inputs pg !! k))
  /\
  (forall pg idx f g old,
     at_ (getInputs 0 pg) idx = Some g ->
     read_credit g pg = (Normal old, pg) ->
     let pg' := exec_on (update idx f) pg in
     (truthy (artist (f old)) = false ->
      forall k, artistInput g = Some k -> inputs pg' !! k = inputs pg !! k) /\
     (truthy_opt (creditedAs (f old)) = false ->
      forall k, creditedAsInput g = Some k -> inputs pg' !! k = inputs pg !! k) /\
     (truthy_opt (joinPhrase (f old)) = false ->
      forall k, joinPhraseInput g = Some k -> inputs pg' !! k = inputs pg !! k)).
Proof.
  assert (Hall : forall pg sliceIndex g credit,
     g ∈ getInputs sliceIndex pg ->
     let pg' := exec_on (updateInputs (Some g) credit) pg in
     (truthy (artist credit) = false ->
      forall k, artistInput g = Some k -> inputs pg' !! k = inputs pg !! k) /\
     (truthy_opt (creditedAs credit) = false ->
      forall k, creditedAsInput g = Some k -> inputs pg' !! k = inputs pg !! k) /\
     (truthy_opt (joinPhrase credit) = false ->
      forall k, joinPhraseInput g = Some k -> inputs pg' !! k = inputs pg !! k)).
  { intros pg sliceIndex g credit Hg pg'.
    apply group_of_elem in Hg as [i ->].
    destruct (updateInputs_lookup (length (inputs pg)) i credit pg) as (La & Lc & Lj).
    subst pg'. unfold exec_on.
    split_and!; intros Hv k Hk.
    - rewrite (La k Hk). apply fmap_written_falsy, Hv.
    - rewrite (Lc k Hk). apply fmap_written_falsy, Hv.
    - rewrite (Lj k Hk). apply fmap_written_falsy, Hv. }
  split; [ exact Hall | ].
  intros pg idx f g old Hat Hr pg'. subst pg'. unfold exec_on.
  rewrite (update_unfold pg idx f g old Hat Hr).
  apply (Hall pg 0%Z g (f old)).
  destruct (at_Some _ _ _ Hat) as [i Hi].
  apply list_elem_of_lookup. eauto.
Qed.

(** ** [fill] *)

Lemma frame_weaken (P Q : nat -> Prop) pg pg' :
  (forall k, P k -> Q k) -> frame Q pg pg' -> frame P pg pg'.
Proof.
  unfold frame. intros HPQ (L & F & R). split_and!; auto; tauto.
Qed.

Lemma insert_timer_clicks m :
  insert_timer 10 AddItemClick (replicate m (10, AddItemClick))
  = replicate (S m) (10, AddItemClick).
Proof. induction m as [ | m IH ]; simpl; [ | rewrite IH ]; reflexivity. Qed.

Lemma insert_timer_write m t :
  insert_timer 30 t (replicate m (10, AddItemClick))
  = replicate m (10, AddItemClick) ++ [(30, t)].
Proof. induction m as [ | m IH ]; simpl; [ | rewrite IH ]; reflexivity. Qed.

Lemma map_snd_replicate n (d : nat) (t : Task) (q : list (nat * Task)) :
  map snd (replicate n (d, t) ++ q) = replicate n t ++ map snd q.
Proof. induction n as [ | n IH ]; simpl; [ | rewrite IH ]; reflexivity. Qed.

Lemma schedule_clicks_spec n :
  forall m pg,
    timers pg = replicate m (10, AddItemClick) ->
    schedule_clicks n pg
    = (Normal tt, with_timers (replicate (m + n) (10, AddItemClick)) pg).
Proof.
  induction n as [ | n IH ]; intros m pg Ht; simpl.
  - rewrite Nat.add_0_r, <- Ht. destruct pg; reflexivity.
  - unfold bind, setTimeout. rewrite Ht, insert_timer_clicks.
    rewrite (IH (S m)) by reflexivity.
    replace (S m + n) with (m + S n) by lia. reflexivity.
Qed.

Lemma fill_spec credits pg :
  timers pg = [] ->
  fill credits pg
  = (Normal tt,
     with_timers
       (replicate (length credits - length (getInputs 0 pg)) (10, AddItemClick)
        ++ [(30, FillWrite credits)]) pg).
Proof.
  intros Ht. unfold fill, bind.
  destruct (Nat.ltb_spec (length (getInputs 0 pg)) (length credits)) as [Hlt | Hge].
  - rewrite (schedule_clicks_spec _ 0 pg) by exact Ht.
    unfold setTimeout. cbn [timers with_timers Nat.add].
    rewrite insert_timer_write. reflexivity.
  - replace (length credits - length (getInputs 0 pg)) with 0 by lia.
    unfold ret, setTimeout. rewrite Ht. reflexivity.
Qed.

Lemma write_credits_frame credits :
  forall gs idx pg,
    (forall i g, gs !! i = Some g -> exists n, g = group n i) ->
    frame (fun k => (idx + length credits) * 3 <= k) pg
      (snd (write_credits gs idx credits pg)).
Proof.
  induction credits as [ | credit credits IH ]; intros gs idx pg Hgs; simpl.
  - apply frame_refl.
  - unfold bind.
    assert (H1 : frame (fun k => (idx + S (length credits)) * 3 <= k) pg
                   (snd (updateInputs (gs !! idx) credit pg))).
    { apply updateInputs_frame. intros g k Hg Hin Hk.
      apply Hgs in Hg as [n ->]. apply group_inputs in Hin. lia. }
    destruct (updateInputs (gs !! idx) credit pg) as [[[] | e] pg1];
      simpl in H1; [ | exact H1 ].
    eapply frame_trans; [ exact H1 | ].
    eapply frame_weaken; [ | apply IH, Hgs ].
    simpl. intros k Hk. lia.
Qed.

Lemma write_credits_normal credits :
  forall gs idx pg,
    idx + length credits <= length gs ->
    fst (write_credits gs idx credits pg) = Normal tt.
Proof.
  induction credits as [ | credit credits IH ]; intros gs idx pg Hlen; simpl.
  - reflexivity.
  - simpl in Hlen. unfold bind.
    destruct (lookup_lt_is_Some_2 gs idx ltac:(lia)) as [g ->].
    destruct (updateInputs_spec g credit pg) as [d ->].
    apply IH. lia.
Qed.

Lemma getInputs_groups pg i g :
  getInputs 0 pg !! i = Some g -> exists n, g = group n i.
Proof. intros H. apply getInputs_0_lookup_Some in H as [_ ->]. eauto. Qed.

Lemma fill_write_frame host credits pg :
  frame (fun k => length credits * 3 <= k) pg
    (exec_on (run_task host (FillWrite credits)) pg).
Proof.
  unfold exec_on, run_task.
  apply (write_credits_frame credits (getInputs 0 pg) 0 pg).
  apply getInputs_groups.
Qed.

Section HostRuns.

Variable host : list HTMLInputElement -> list HTMLInputElement.

(** The clicks fire: each one is counted and answered by the host. *)
Lemma run_tasks_clicks n :
  forall ts pg,
    clicks (run_tasks host (replicate n AddItemClick ++ ts) pg)
    = clicks (run_tasks host ts
                {| inputs := Nat.iter n host (inputs pg);
                   clicks := clicks pg + n;
                   dispatched := dispatched pg; alerts := alerts pg;
                   timers := timers pg; uncaught := uncaught pg |}).
Proof.
  induction n as [ | n IH ]; intros ts pg; simpl.
  - rewrite Nat.add_0_r. destruct pg; reflexivity.
  - rewrite IH. cbn [inputs clicks dispatched alerts timers uncaught].
    replace (S (clicks pg) + n) with (clicks pg + S n) by lia.
    replace (Nat.iter n host (host (inputs pg)))
      with (host (Nat.iter n host (inputs pg))); [ reflexivity | ].
    clear. induction n as [ | n IHn ]; simpl; [ | rewrite IHn ]; reflexivity.
Qed.

Lemma run_fill_write_clicks credits pg :
  clicks (run_tasks host [FillWrite credits] pg) = clicks pg.
Proof.
  pose proof (fill_write_frame host credits pg) as (_ & _ & C & _).
  unfold exec_on in C. cbn [run_tasks].
  destruct (run_task host (FillWrite credits) pg) as [[[] | e] pg1];
    simpl in C |- *; exact C.
Qed.

End HostRuns.

(** C10. [fill(credits)] never removes a slot.  With no timer pending,
    it sets [length credits - slots] timers that click the add button
    (none when there are at least as many slots as credits) and one that
    writes, and all those clicks are made.  The write leaves the number
    of inputs and every input from position [3 * length credits] on as
    they are.  When there are at least as many slots as credits, no click
    is made, no error is thrown, and every input of every slot from
    [length credits] on is as before. *)
Theorem fill_never_removes
    (host : list HTMLInputElement -> list HTMLInputElement)
    (credits : list ArtistCredit) (pg : Page) :
  timers pg = [] ->
  let slots := length (getInputs 0 pg) in
  exec_on (fill credits) pg
  = with_timers
      (replicate (length credits - slots) (10, AddItemClick)
       ++ [(30, FillWrite credits)]) pg
  /\ clicks (run host (fill credits) pg) = clicks pg + (length credits - slots)
  /\ (forall pg2,
        frame (fun k => length credits * 3 <= k) pg2
          (exec_on (run_task host (FillWrite credits)) pg2))
  /\ (length credits <= slots ->
      let pg' := run host (fill credits) pg in
      clicks pg' = clicks pg /\ uncaught pg' = uncaught pg /\
      length (inputs pg') = length (inputs pg) /\
      forall i g k,
        length credits <= i -> getInputs 0 pg !! i = Some g ->
        is_input_of g k -> inputs pg' !! k = inputs pg !! k).
Proof.
  intros Ht slots. split_and!.
  - unfold exec_on. rewrite fill_spec by exact Ht. reflexivity.
  - unfold run, exec_on, run_timers. rewrite fill_spec by exact Ht.
    cbn [snd timers with_timers].
    rewrite map_snd_replicate. cbn [map snd].
    rewrite run_tasks_clicks, run_fill_write_clicks. reflexivity.
  - intros pg2. apply fill_write_frame.
  - intros Hle pg'. subst pg'. unfold run, exec_on, run_timers.
    rewrite fill_spec by exact Ht. cbn [snd timers with_timers].
    replace (length credits - length (getInputs 0 pg)) with 0 by (subst slots; lia).
    simpl.
    pose proof (fill_write_frame host credits pg) as (L & F & C & A & T & U).
    pose proof (write_credits_normal credits (getInputs 0 pg) 0 pg Hle) as Hn.
    unfold exec_on, run_task in *.
    assert (E : with_timers [] (with_timers [(30, FillWrite credits)] pg) = pg)
      by (destruct pg; simpl in Ht |- *; rewrite Ht; reflexivity).
    rewrite E.
    destruct (write_credits (getInputs 0 pg) 0 credits pg) as [[[] | e] pg1];
      simpl in *; [ | discriminate ].
    split_and!; auto.
    intros i g k Hi Hg Hin. apply F.
    apply getInputs_0_lookup_Some in Hg as [_ ->].
    apply group_inputs in Hin. nia.
Qed.

(** C9. Writing to a slot that is not there is not a no-op on every
    path.  When the host has rendered one slot by the time the write of
    [fill] runs, the callback writing the credits of ["A, B"] throws a
    TypeError at the second credit, and the run of [fill] ends with that
    error uncaught; [update] on a last group of one input throws as
    well, when it reads the inputs that are not there. *)
Theorem fill_write_missing_slot_throws :
  fst (run_task no_slot (FillWrite (parseArtistCreditsString (u16 "A, B")))
         (page_of [inp "A, B"; inp ""; inp ""]))
  = Throw TypeError
  /\ uncaught (run no_slot (fill (parseArtistCreditsString (u16 "A, B")))
                (page_of [inp "A, B"; inp ""; inp ""]))
     = [TypeError]
  /\ fst (update (-1) (fun credit => credit)
            (page_of [inp "A"; inp ""; inp ""; inp "B"]))
     = Throw TypeError.
Proof. vm_compute. auto. Qed.

(** ** The character-voice append flow *)

Lemma find_None_forall {A} (f : A -> bool) (l : list A) :
  (forall x, x ∈ l -> f x = false) -> find f l = None.
Proof.
  induction l as [ | y l IH ]; intros H; simpl; [ reflexivity | ].
  rewrite (H y) by constructor.
  apply IH. intros x Hx. apply H. constructor. exact Hx.
Qed.

(** C7. A lookup that misses aborts the flow with a message and nothing
    else.  With a character name in the last slot: if no link of the
    preview text shows that name (or the link that does has no artist
    address), or if the character is found but has no relation of the
    voice-actor type, backward and not ended, then [appendCharacterCV]
    ends normally on the page it started from with one more alert: no
    input written, no event dispatched, no click, no timer set. *)
Theorem lookup_miss_aborts_unmutated
    (host : list HTMLInputElement -> list HTMLInputElement)
    (preview : list PreviewArtist) (relations : jsstring -> list Relation)
    (config : option StoredPhrases) (pg : Page) (characterName : jsstring) :
  first_artist_value (-1) pg = Some characterName ->
  truthy characterName = true ->
  ((forall a, a ∈ preview -> name a <> characterName) ->
   appendCharacterCV host preview relations config pg
   = (Normal tt, alerted (u16 "Character not found in preview text.") pg))
  /\
  (forall a g,
     find (fun a => bool_decide (name a = characterName)) preview = Some a ->
     gid a = Some g -> truthy g = true ->
     (forall r, r ∈ relations g ->
        ~ (type_id r = RELATIONSHIP_ID /\ direction r = u16 "backward" /\
           ended r = false)) ->
     appendCharacterCV host preview relations config pg
     = (Normal tt, alerted (u16 "No voice actor relationship found.") pg))
  /\
  (forall a,
     find (fun a => bool_decide (name a = characterName)) preview = Some a ->
     gid a = None ->
     appendCharacterCV host preview relations config pg
     = (Normal tt, alerted (u16 "Character not found in preview text.") pg)).
Proof.
  intros Hname Htruthy. split_and!.
  - intros Hmiss. unfold appendCharacterCV.
    rewrite Hname, Htruthy. cbv zeta. unfold bind at 1.
    unfold getCharacterMBID.
    rewrite find_None_forall.
    + reflexivity.
    + intros a Ha. apply bool_decide_eq_false. apply Hmiss, Ha.
  - intros a g Hfind Hgid Hg Hmiss. unfold appendCharacterCV.
    rewrite Hname, Htruthy. cbv zeta. unfold bind at 1.
    unfold getCharacterMBID. rewrite Hfind, Hgid.
    unfold ret at 1. unfold bind at 1. unfold getVoiceActor.
    rewrite Hg, find_None_forall.
    + reflexivity.
    + intros r Hr. unfold is_voice_actor.
      specialize (Hmiss r Hr).
      destruct (bool_decide_reflect (type_id r = RELATIONSHIP_ID)); [ | reflexivity ].
      destruct (bool_decide_reflect (direction r = u16 "backward")); [ | reflexivity ].
      destruct (ended r); [ reflexivity | ]. exfalso. apply Hmiss. auto.
  - intros a Hfind Hgid. unfold appendCharacterCV.
    rewrite Hname, Htruthy. cbv zeta. unfold bind at 1.
    unfold getCharacterMBID. rewrite Hfind, Hgid. reflexivity.
Qed.

Lemma bind_Normal {A B} (m : M A) (f : A -> M B) pg a pg' :
  m pg = (Normal a, pg') -> bind m f pg = f a pg'.
Proof. unfold bind. intros ->. reflexivity. Qed.

(** [update] with an updater that only sets the join phrase: the slot's
    other two inputs get the values they have. *)
Lemma update_set_joinPhrase pg idx i (h : ArtistCredit -> jsstring) ea ec ej :
  at_ (getInputs 0 pg) idx = Some (group (length (inputs pg)) i) ->
  inputs pg !! (i * 3) = Some ea ->
  inputs pg !! (i * 3 + 1) = Some ec ->
  inputs pg !! (i * 3 + 2) = Some ej ->
  exists d,
    update idx (fun credit => set_joinPhrase (h credit) credit) pg
    = (Normal tt,
       wrote (<[i * 3 + 2 :=
                 written ej
                   (Some (h {| artist := value ea;
                               creditedAs := Some (value ec);
                               joinPhrase := Some (value ej) |}))]>
                (inputs pg)) d pg).
Proof.
  intros Hat Ha Hc Hj.
  destruct (update_complete pg idx
              (fun credit => set_joinPhrase (h credit) credit) i ea ec ej
              Hat Ha Hc Hj) as [d Hu].
  exists d. rewrite Hu. cbn [artist creditedAs joinPhrase set_joinPhrase].
  rewrite (write_to_same _ _ _ Ha), (write_to_same _ _ _ Hc).
  unfold write_to. rewrite Hj. reflexivity.
Qed.

(** The same for a value that may be [null]. *)
Lemma update_with_joinPhrase pg idx i (v : option jsstring) ea ec ej :
  at_ (getInputs 0 pg) idx = Some (group (length (inputs pg)) i) ->
  inputs pg !! (i * 3) = Some ea ->
  inputs pg !! (i * 3 + 1) = Some ec ->
  inputs pg !! (i * 3 + 2) = Some ej ->
  exists d,
    update idx (fun credit => with_joinPhrase v credit) pg
    = (Normal tt, wrote (<[i * 3 + 2 := written ej v]> (inputs pg)) d pg).
Proof.
  intros Hat Ha Hc Hj.
  destruct (update_complete pg idx
              (fun credit => with_joinPhrase v credit) i ea ec ej
              Hat Ha Hc Hj) as [d Hu].
  exists d. rewrite Hu. cbn [artist creditedAs joinPhrase with_joinPhrase].
  rewrite (write_to_same _ _ _ Ha), (write_to_same _ _ _ Hc).
  unfold write_to. rewrite Hj. reflexivity.
Qed.

Lemma write_to_app_r l l' i v :
  write_to (Some (length l + i)) v (l ++ l') = l ++ write_to (Some i) v l'.
Proof.
  unfold write_to. rewrite lookup_app_r by lia.
  replace (length l + i - length l) with i by lia.
  destruct (l' !! i) as [el | ]; [ | reflexivity ].
  rewrite insert_app_r_alt by lia.
  replace (length l + i - length l) with i by lia. reflexivity.
Qed.

(** The write of [append] when the host has added a fresh slot. *)
Lemma append_write_new_slot host l n credit pg :
  inputs pg = l ++ [blank; blank; blank] -> length l = 3 * n ->
  exists d,
    run_task host (AppendWrite credit) pg
    = (Normal tt,
       wrote (l ++ [written blank (Some (artist credit));
                    written blank (creditedAs credit);
                    written blank (joinPhrase credit)]) d pg).
Proof.
  intros Hl Hlen. unfold run_task.
  assert (Hn : length (inputs pg) = 3 * S n)
    by (rewrite Hl, length_app, Hlen; simpl; lia).
  rewrite getInputs_last, Hn, groups_complete.
  cbn [Nat.eqb]. replace (S n - 1) with n by lia.
  rewrite group_complete by lia.
  match goal with
  | |- context [updateInputs (Some ?g) credit pg] =>
      destruct (updateInputs_spec g credit pg) as [d ->]
  end.
  exists d. cbn [artistInput creditedAsInput joinPhraseInput].
  rewrite Hl.
  replace (n * 3) with (length l + 0) by lia.
  replace (length l + 0 + 1) with (length l + 1) by lia.
  replace (length l + 0 + 2) with (length l + 2) by lia.
  rewrite !write_to_app_r. reflexivity.
Qed.

(** C6.  On a page of [n >= 2] complete slots with no
    timer pending, where the host answers a click with a fresh slot, and
    both lookups succeed with the performer [m]: the run of
    [appendCharacterCV] writes the three tokens of [getCVJoinPhrases]
    (the defaults when nothing is stored) as [updateInputs] writes any
    value, that is, only a non-empty value and only to an enabled input.
    The join phrase input of the second-to-last slot, when enabled, gets
    its value followed by the separator (a [null] one reading "null")
    and a space, and stays as it is when disabled; that of the last slot
    gets the opening token when the token is a non-empty string and the
    input is enabled, and keeps its value when the token is empty or
    [null] or the input is disabled; the new slot has [m] as its artist,
    an empty credited name, and the closing token as its join phrase,
    empty when the token is empty or [null]; no other input changes. *)
Theorem append_character_cv_writes
    (preview : list PreviewArtist) (relations : jsstring -> list Relation)
    (config : option StoredPhrases) (pg : Page) (n : nat)
    (characterName g m : jsstring) (a : PreviewArtist) (r : Relation)
    (e2 e1 : HTMLInputElement) :
  length (inputs pg) = 3 * n -> 2 <= n -> timers pg = [] ->
  first_artist_value (-1) pg = Some characterName ->
  truthy characterName = true ->
  find (fun a => bool_decide (name a = characterName)) preview = Some a ->
  gid a = Some g -> truthy g = true ->
  find is_voice_actor (relations g) = Some r ->
  relation_artist_id r = m -> truthy m = true ->
  inputs pg !! ((n - 2) * 3 + 2) = Some e2 ->
  inputs pg !! ((n - 1) * 3 + 2) = Some e1 ->
  let cv := getCVJoinPhrases config in
  let pg' := run add_slot (appendCharacterCV add_slot preview relations config) pg in
  let j2 := value e2 ++ token_str (separator cv) ++ u16 " " in
  inputs pg'
  = <[(n - 1) * 3 + 2 := written e1 (fst (joinPhrases cv))]>
      (<[(n - 2) * 3 + 2 := written e2 (Some j2)]> (inputs pg))
    ++ [ {| value := m; disabled := false |}; blank;
         {| value := default [] (snd (joinPhrases cv)); disabled := false |} ]
  /\ (disabled e2 = false ->
      inputs pg' !! ((n - 2) * 3 + 2)
      = Some {| value := j2; disabled := false |})
  /\ (disabled e2 = true -> inputs pg' !! ((n - 2) * 3 + 2) = Some e2)
  /\ (forall o,
        fst (joinPhrases cv) = Some o -> truthy o = true ->
        disabled e1 = false ->
        inputs pg' !! ((n - 1) * 3 + 2)
        = Some {| value := o; disabled := false |})
  /\ (truthy_opt (fst (joinPhrases cv)) = false \/ disabled e1 = true ->
      inputs pg' !! ((n - 1) * 3 + 2) = Some e1)
  /\ clicks pg' = S (clicks pg) /\ alerts pg' = alerts pg
  /\ uncaught pg' = uncaught pg /\ timers pg' = []
  /\ getCVJoinPhrases None
     = {| joinPhrases := (Some (u16 " (CV "), Some (u16 ")"));
          separator := Some (u16 ",") |}.
Proof.
  intros Hlen Hn Ht Hname Hname_t Hfind Hgid Hg Hrel Hm Hm_t He2 He1 cv pg' j2.
  (* the two slots *)
  assert (Hslots : length (getInputs 0 pg) = n)
    by (rewrite getInputs_0_length, Hlen; apply groups_complete).
  assert (Hat2 : at_ (getInputs 0 pg) (-2)
                 = Some (group (length (inputs pg)) (n - 2))).
  { rewrite (at_from_end _ 2) by lia. rewrite Hslots.
    apply getInputs_0_lookup. rewrite Hlen, groups_complete. lia. }
  destruct (lookup_lt_is_Some_2 (inputs pg) ((n - 2) * 3) ltac:(lia)) as [ea2 Hea2].
  destruct (lookup_lt_is_Some_2 (inputs pg) ((n - 2) * 3 + 1) ltac:(lia)) as [ec2 Hec2].
  destruct (update_set_joinPhrase pg (-2) (n - 2)
              (fun credit =>
                 to_str (joinPhrase credit) ++ token_str (separator cv)
                 ++ u16 " ")
              ea2 ec2 e2 Hat2 Hea2 Hec2 He2) as [d1 Hu1].
  cbn [joinPhrase to_str default from_option id] in Hu1.
  fold j2 in Hu1.
  set (l1 := <[(n - 2) * 3 + 2 := written e2 (Some j2)]> (inputs pg)) in *.
  set (pg1 := wrote l1 d1 pg) in *.
  assert (Hlen1 : length (inputs pg1) = 3 * n)
    by (subst pg1 l1; cbn [inputs wrote]; rewrite length_insert; exact Hlen).
  assert (Hat1 : at_ (getInputs 0 pg1) (-1)
                 = Some (group (length (inputs pg1)) (n - 1))).
  { rewrite (at_from_end _ 1)
      by (rewrite getInputs_0_length, Hlen1, groups_complete; lia).
    rewrite getInputs_0_length.
    rewrite getInputs_0_lookup by (rewrite Hlen1, groups_complete; lia).
    rewrite Hlen1, groups_complete. reflexivity. }
  destruct (lookup_lt_is_Some_2 (inputs pg1) ((n - 1) * 3) ltac:(lia)) as [ea1 Hea1].
  destruct (lookup_lt_is_Some_2 (inputs pg1) ((n - 1) * 3 + 1) ltac:(lia)) as [ec1 Hec1].
  assert (He1' : inputs pg1 !! ((n - 1) * 3 + 2) = Some e1)
    by (subst pg1 l1; cbn [inputs wrote];
        rewrite list_lookup_insert_ne by lia; exact He1).
  destruct (update_with_joinPhrase pg1 (-1) (n - 1)
              (fst (joinPhrases cv))
              ea1 ec1 e1 Hat1 Hea1 Hec1 He1') as [d2 Hu2].
  set (l2 := <[(n - 1) * 3 + 2 := written e1 (fst (joinPhrases cv))]>
               (inputs pg1)) in *.
  (* the flow *)
  assert (Hrun : exists d,
    pg' = {| inputs := l2 ++ [written blank (Some m); written blank None;
                              written blank (snd (joinPhrases cv))];
             clicks := S (clicks pg); dispatched := d; alerts := alerts pg;
             timers := []; uncaught := uncaught pg |}).
  { subst pg'. unfold run, exec_on, appendCharacterCV.
    rewrite Hname, Hname_t. cbv zeta.
    unfold getCharacterMBID. rewrite Hfind, Hgid.
    rewrite (bind_Normal _ _ pg (Some g) pg) by reflexivity.
    unfold getVoiceActor. rewrite Hg, Hrel, Hm.
    rewrite (bind_Normal _ _ pg (Some m) pg) by reflexivity.
    unfold append_voice_actor. rewrite Hm_t. fold cv.
    rewrite (bind_Normal _ _ _ _ _ Hu1).
    rewrite (bind_Normal _ _ _ _ _ Hu2).
    unfold append, bind, click, setTimeout, run_timers.
    cbn [fst snd inputs clicks dispatched alerts timers uncaught wrote with_timers].
    change (timers pg1) with (timers pg). change (clicks pg1) with (clicks pg).
    change (alerts pg1) with (alerts pg).
    change (uncaught pg1) with (uncaught pg).
    rewrite Ht. cbn [insert_timer map snd run_tasks with_timers
                     inputs clicks dispatched alerts timers uncaught].
    match goal with
    | |- context [run_task add_slot (AppendWrite ?c) ?q] =>
        destruct (append_write_new_slot add_slot l2 n c q) as [d3 ->]
    end.
    - reflexivity.
    - subst l2. rewrite length_insert. exact Hlen1.
    - exists d3. reflexivity. }
  destruct Hrun as [d ->]. cbn [inputs clicks alerts timers uncaught].
  assert (Hblank : forall s, truthy s = true ->
            written blank (Some s) = {| value := s; disabled := false |})
    by (intros s Hs; unfold written; rewrite Hs; reflexivity).
  assert (Hl2 : length l2 = 3 * n)
    by (subst l2; rewrite length_insert; exact Hlen1).
  assert (H2 : l2 !! ((n - 2) * 3 + 2) = Some (written e2 (Some j2))).
  { subst l2. rewrite list_lookup_insert_ne by lia.
    subst pg1 l1. cbn [inputs wrote].
    apply list_lookup_insert_eq. lia. }
  assert (H1 : l2 !! ((n - 1) * 3 + 2)
               = Some (written e1 (fst (joinPhrases cv)))).
  { subst l2. apply list_lookup_insert_eq. lia. }
  assert (Hj2 : truthy j2 = true).
  { subst j2. destruct (value e2); [ | reflexivity ].
    destruct (token_str (separator cv)); reflexivity. }
  split_and!; try reflexivity.
  - rewrite (Hblank m Hm_t). subst l2 pg1 l1. cbn [inputs wrote].
    do 4 f_equal. unfold written, blank. cbn [disabled negb andb].
    destruct (snd (joinPhrases cv)) as [[ | c s] | ]; reflexivity.
  - intros Hd. rewrite lookup_app_l by lia. rewrite H2.
    unfold written. rewrite Hj2, Hd. reflexivity.
  - intros Hd. rewrite lookup_app_l by lia. rewrite H2.
    unfold written. rewrite Hd, andb_false_r. reflexivity.
  - intros o Ho Hto Hd. rewrite lookup_app_l by lia. rewrite H1, Ho.
    unfold written. rewrite Hto, Hd. reflexivity.
  - intros Hcase. rewrite lookup_app_l by lia. rewrite H1.
    unfold written.
    destruct (fst (joinPhrases cv)) as [o | ]; [ | reflexivity ].
    destruct Hcase as [Hf | Hd].
    + simpl in Hf. rewrite Hf. reflexivity.
    + rewrite Hd, andb_false_r. reflexivity.
Qed.

Lemma append_character_cv_writes_witness :
  inputs (run add_slot
            (appendCharacterCV add_slot sample_preview sample_relations None)
            two_slots)
  = [ inp "Other"; inp ""; inp " & , "; inp "Chara"; inp ""; inp " (CV ";
      inp "va-1"; blank; inp ")" ].
Proof.
  exact (proj1 (append_character_cv_writes sample_preview sample_relations
                  None two_slots 2 (u16 "Chara") (u16 "c-1") (u16 "va-1")
                  _ _ (inp " & ") (inp "x")
                  eq_refl (le_n 2) eq_refl eq_refl eq_refl eq_refl eq_refl
                  eq_refl eq_refl eq_refl eq_refl eq_refl eq_refl)).
Defined.

(** C6, the opening token being the empty string: the join phrase of
    the last slot does not become that token, it keeps its value. *)
Lemma append_character_cv_empty_open :
  fst (joinPhrases (getCVJoinPhrases empty_open)) = Some [] /\
  field_value empty_open_run (Some 5) = Some (u16 "x") /\
  field_value empty_open_run (Some 5)
  <> fst (joinPhrases (getCVJoinPhrases empty_open)).
Proof. vm_compute. split_and!; [ reflexivity | reflexivity | discriminate ]. Qed.

(** ** Instances *)

Lemma update_read_modify_write_witness :
  inputs (exec_on (update (-1) (set_joinPhrase (u16 ", "))) two_slots) !! 5
  = Some (written (inp "x") (Some (u16 ", "))).
Proof.
  destruct (update_read_modify_write two_slots (-1) (set_joinPhrase (u16 ", ")))
    as (_ & _ & H).
  destruct (H (group 6 1) eq_refl) as [_ H2].
  destruct (H2 3 4 5 (inp "Chara") (inp "") (inp "x")
              eq_refl eq_refl eq_refl eq_refl eq_refl eq_refl)
    as (_ & _ & _ & H3).
  exact H3.
Defined.

Lemma falsy_value_leaves_field_witness :
  inputs (exec_on (updateInputs (Some (group 6 1))
                     {| artist := u16 "B"; creditedAs := None;
                        joinPhrase := Some [] |}) two_slots) !! 5
  = inputs two_slots !! 5.
Proof.
  destruct falsy_value_leaves_field as [H _].
  destruct (H two_slots 0%Z (group 6 1)
              {| artist := u16 "B"; creditedAs := None; joinPhrase := Some [] |})
    as (_ & _ & Hj).
  - apply list_elem_of_lookup. exists 1. reflexivity.
  - exact (Hj eq_refl 5 eq_refl).
Defined.

Lemma fill_never_removes_witness :
  clicks (run add_slot (fill (parseArtistCreditsString (u16 "A, B"))) one_slot)
  = 1.
Proof.
  exact (proj1 (proj2 (fill_never_removes add_slot
                         (parseArtistCreditsString (u16 "A, B")) one_slot
                         eq_refl))).
Defined.

Lemma lookup_miss_aborts_unmutated_witness :
  appendCharacterCV add_slot other_preview sample_relations None two_slots
  = (Normal tt, alerted (u16 "Character not found in preview text.") two_slots).
Proof.
  apply (proj1 (lookup_miss_aborts_unmutated add_slot other_preview
                  sample_relations None two_slots (u16 "Chara")
                  eq_refl eq_refl)).
  intros a Ha. apply list_elem_of_singleton in Ha. subst a. discriminate.
Defined.

(** ** The examples of the documentation *)

Example parse_vs_feat :
  parseArtistCreditsString (u16 "A vs. B feat. C")
  = [ {| artist := u16 "A"; creditedAs := Some (u16 "A");
         joinPhrase := Some (u16 " vs. ") |};
      {| artist := u16 "B"; creditedAs := None;
         joinPhrase := Some (u16 " feat. ") |};
      {| artist := u16 "C"; creditedAs := None; joinPhrase := None |} ].
Proof. vm_compute. reflexivity. Qed.

Example parse_empty : parseArtistCreditsString [] = [].
Proof. reflexivity. Qed.

(** The run of [fill] on the credits of ["A, B"] when the host adds the
    slot in time. *)
Example fill_two_credits :
  inputs (run add_slot (fill (parseArtistCreditsString (u16 "A, B"))) one_slot)
  = [ inp "A"; inp "A"; inp ", "; inp "B"; blank; blank ].
Proof. vm_compute. reflexivity. Qed.

(** * Further properties *)

(** ** The parser records every match *)

Lemma credits_loop_artists artists :
  forall pos matches,
    map artist (credits_loop pos artists matches) = artists.
Proof.
  induction artists as [ | a artists IH ]; intros pos matches; simpl.
  - reflexivity.
  - destruct matches as [ | m matches]; [ simpl; rewrite IH; reflexivity | ].
    destruct (index m =? pos + length a); simpl; rewrite IH; reflexivity.
Qed.

(** Over a cutting the guard of the loop never fails. *)
Lemma tokens_joinPhrases pattern str p artists matches :
  tokens pattern str p artists matches ->
  map joinPhrase (credits_loop p artists matches)
  = map (fun m => Some (matched m)) matches ++ [None]
  /\ Forall (fun m => matched m <> []) matches.
Proof.
  induction 1 as [ p Hp Hnone | p i e artists matches Hpi Hie He Hnone Hm Ht [IH1 IH2] ].
  - split; [ reflexivity | constructor ].
  - simpl. rewrite substring_length by lia.
    replace (p + (i - p)) with i by lia.
    rewrite Nat.eqb_refl.
    rewrite substring_length by lia.
    replace (i + (e - i)) with e by lia.
    simpl. rewrite IH1. split; [ reflexivity | ].
    constructor; [ | exact IH2 ]. simpl. intros E.
    apply (f_equal length) in E. rewrite substring_length in E by lia.
    simpl in E. lia.
Qed.

Lemma credit_first_joinPhrases credits :
  map joinPhrase (credit_first credits) = map joinPhrase credits.
Proof. destruct credits; reflexivity. Qed.

Lemma credit_first_artists credits :
  map artist (credit_first credits) = map artist credits.
Proof. destruct credits; reflexivity. Qed.

(** On a string that is not empty the parser is the loop over the
    pieces and the matches, followed by the step on the first credit. *)
Lemma parse_nonempty (s : jsstring) :
  s <> [] ->
  parseArtistCreditsString s
  = credit_first
      (credits_loop 0 (split JOIN_PHRASE_PATTERN s)
         (matchAll JOIN_PHRASE_PATTERN s)).
Proof.
  intros Hne. unfold parseArtistCreditsString.
  destruct s; [ contradiction | reflexivity ].
Qed.

(** X1. On a string that is not empty the parser records every match of
    the pattern: the join phrases of the credits are the texts of the
    matches, in order, each of them non-empty, and only the last credit
    has none; so there is one credit more than there are matches, and
    the artists are the pieces of [split]. *)
Theorem parse_records_every_match (s : jsstring) :
  s <> [] ->
  map joinPhrase (parseArtistCreditsString s)
  = map (fun m => Some (matched m)) (matchAll JOIN_PHRASE_PATTERN s) ++ [None]
  /\ Forall (fun m => matched m <> []) (matchAll JOIN_PHRASE_PATTERN s)
  /\ length (parseArtistCreditsString s)
     = S (length (matchAll JOIN_PHRASE_PATTERN s))
  /\ map artist (parseArtistCreditsString s) = split JOIN_PHRASE_PATTERN s.
Proof.
  intros Hne.
  pose proof (tokens_split_matchAll JOIN_PHRASE_PATTERN
                JOIN_PHRASE_PATTERN_nonnull s Hne) as Ht.
  apply tokens_joinPhrases in Ht as [Hj Hm].
  pose proof (parse_nonempty s Hne) as Hp.
  assert (Hjp : map joinPhrase (parseArtistCreditsString s)
                = map (fun m => Some (matched m))
                    (matchAll JOIN_PHRASE_PATTERN s) ++ [None])
    by (rewrite Hp, credit_first_joinPhrases; exact Hj).
  split_and!; auto.
  - apply (f_equal length) in Hjp.
    rewrite length_map, length_app, length_map in Hjp. simpl in Hjp. lia.
  - rewrite Hp, credit_first_artists. apply credits_loop_artists.
Qed.

Lemma parse_records_every_match_witness :
  map joinPhrase (parseArtistCreditsString (u16 "A, B"))
  = map (fun m => Some (matched m)) (matchAll JOIN_PHRASE_PATTERN (u16 "A, B"))
    ++ [None].
Proof.
  apply (proj1 (parse_records_every_match (u16 "A, B") ltac:(discriminate))).
Defined.

(** ** A name without separators stays whole *)

(** A match that consumed something began with a code unit the pattern
    can begin with. *)
Lemma re_match_starts (r : regex) :
  forall c s k x,
    re_match r (c :: s) k = Some x ->
    starts r c = true \/ (nonnull r = false /\ k (c :: s) = Some x).
Proof.
  induction r as [ | p | r1 IH1 r2 IH2 | r1 IH1 r2 IH2 | r1 IH1 | r1 IH1 ];
    intros c s k x H; simpl in H.
  - right. auto.
  - left. simpl. destruct (p c); [ reflexivity | discriminate ].
  - apply IH1 in H as [H | [N1 H]].
    + left. simpl. rewrite H. reflexivity.
    + apply IH2 in H as [H | [N2 H]].
      * left. simpl. rewrite N1, H. apply orb_true_r.
      * right. simpl. rewrite N1, N2. auto.
  - destruct (re_match r1 (c :: s) k) as [y | ] eqn:E1.
    + inversion H; subst y. apply IH1 in E1 as [E1 | [N1 E1]].
      * left. simpl. rewrite E1. reflexivity.
      * right. simpl. rewrite N1. auto.
    + apply IH2 in H as [H | [N2 H]].
      * left. simpl. rewrite H. apply orb_true_r.
      * right. simpl. rewrite N2, andb_false_r. auto.
  - match type of H with
    | match ?m with _ => _ end = _ => destruct m as [y | ] eqn:E1
    end; [ | right; auto ].
    apply IH1 in E1 as [E1 | [_ E1]]; [ left; exact E1 | ].
    cbn [length] in E1. rewrite Nat.ltb_irrefl in E1. discriminate.
  - match type of H with
    | match ?m with _ => _ end = _ => destruct m as [y | ] eqn:E1
    end; [ | right; auto ].
    apply IH1 in E1 as [E1 | [_ E1]]; [ left; exact E1 | ].
    cbn [length] in E1. rewrite Nat.ltb_irrefl in E1. discriminate.
Qed.

Lemma canonicalize_caseless c u :
  (u < 65 \/ 90 < u)%N -> (u < 97 \/ 122 < u)%N ->
  (canonicalize c =? u)%N = (c =? u)%N.
Proof.
  intros H1 H2. unfold canonicalize.
  destruct (N.leb_spec 97 c); destruct (N.leb_spec c 122); simpl;
    destruct (N.eqb_spec c u); destruct (N.eqb_spec (c - 32) u); try reflexivity; lia.
Qed.

Lemma starts_JOIN_PHRASE_PATTERN c :
  starts JOIN_PHRASE_PATTERN c = separator_start c.
Proof.
  unfold separator_start. cbn -[is_space canonicalize N.eqb].
  rewrite !orb_false_r.
  rewrite !(canonicalize_caseless c) by (vm_compute; auto).
  repeat match goal with
         | |- context [canonicalize ?u] =>
             let v := eval vm_compute in (canonicalize u) in
             change (canonicalize u) with v
         end.
  unfold LPAREN, FW_LPAREN, RPAREN, FW_RPAREN, COMMA, FW_COMMA, IDEO_COMMA,
    AMP, KATA_DOT.
  destruct (is_space c); simpl; [ reflexivity | ].
  repeat match goal with
         | |- context [(c =? ?u)%N] => destruct (N.eqb_spec c u)
         end; simpl; try reflexivity; try lia.
Qed.

Lemma match_here_plain c s :
  separator_start c = false -> match_here JOIN_PHRASE_PATTERN (c :: s) = None.
Proof.
  intros Hc. unfold match_here.
  destruct (re_match JOIN_PHRASE_PATTERN (c :: s) Some) as [x | ] eqn:E;
    [ | reflexivity ].
  apply re_match_starts in E as [E | [E _]].
  - rewrite starts_JOIN_PHRASE_PATTERN in E. congruence.
  - rewrite JOIN_PHRASE_PATTERN_nonnull in E. discriminate.
Qed.

(** X2. A string that is not empty and has no code unit a join phrase
    can begin with is one credit: the whole string as the artist and as
    the credited name, and no join phrase. *)
Theorem parse_plain_name (s : jsstring) :
  s <> [] -> Forall (fun c => separator_start c = false) s ->
  parseArtistCreditsString s
  = [ {| artist := s; creditedAs := Some s; joinPhrase := None |} ].
Proof.
  intros Hne Hplain.
  assert (Hnone : forall k, match_here JOIN_PHRASE_PATTERN (drop (0 + k) s) = None).
  { intros k. simpl.
    pose proof (Forall_drop _ k _ Hplain) as Hd.
    destruct (drop k s) as [ | c t].
    - apply match_here_nil, JOIN_PHRASE_PATTERN_nonnull.
    - apply match_here_plain. inversion Hd; assumption. }
  pose proof (tokens_last JOIN_PHRASE_PATTERN s 0 ltac:(lia) Hnone) as T1.
  pose proof (tokens_split_matchAll JOIN_PHRASE_PATTERN
                JOIN_PHRASE_PATTERN_nonnull s Hne) as T2.
  destruct (tokens_functional _ _ _ _ _ T2 _ _ T1) as [Hs Hm].
  unfold parseArtistCreditsString.
  destruct s as [ | c s]; [ contradiction | ].
  cbn [truthy]. rewrite Hs, Hm, substring_to_end. reflexivity.
Qed.

Lemma parse_plain_name_witness :
  parseArtistCreditsString (u16 "Queen")
  = [ {| artist := u16 "Queen"; creditedAs := Some (u16 "Queen");
         joinPhrase := None |} ].
Proof.
  apply parse_plain_name; [ discriminate | ].
  repeat constructor.
Defined.

(** ** Artists are trimmed where a join phrase is *)

Lemma re_match_cat r1 r2 s k :
  re_match (Cat r1 r2) s k = re_match r1 s (fun s' => re_match r2 s' k).
Proof. reflexivity. Qed.

Lemma star_cons (p : N -> bool) c s k :
  p c = true ->
  re_match (Star (Cls p)) (c :: s) k
  = match re_match (Star (Cls p)) s k with
    | Some x => Some x
    | None => k (c :: s)
    end.
Proof.
  intros Hp. rewrite !re_match_star. cbn [length star_loop re_match].
  rewrite Hp. destruct (Nat.ltb_spec (length s) (S (length s))); [ | lia ].
  reflexivity.
Qed.

Lemma star_some (r : regex) s : re_match (Star r) s Some <> None.
Proof.
  rewrite re_match_star. destruct (length s); cbn [star_loop];
    [ discriminate | ].
  destruct (re_match r s _); discriminate.
Qed.

(** A greedy [Star] of a set before the end of the pattern leaves no
    member of the set in front of the rest. *)
Lemma star_rest (p : N -> bool) s :
  forall x, re_match (Star (Cls p)) s Some = Some x ->
  forall c x', x = c :: x' -> p c = false.
Proof.
  induction s as [ | c0 s IH ]; intros x H c x' Hx.
  - rewrite re_match_star in H. simpl in H. subst x. discriminate.
  - destruct (p c0) eqn:Hp.
    + rewrite star_cons in H by exact Hp.
      destruct (re_match (Star (Cls p)) s Some) as [y | ] eqn:E.
      * inversion H; subst y. eapply IH; eauto.
      * exfalso. eapply star_some, E.
    + rewrite re_match_star in H. cbn [length star_loop re_match] in H.
      rewrite Hp in H. subst x. inversion H; subst. exact Hp.
Qed.

Lemma join_rest_no_space t rest :
  re_match JOIN_PHRASE_PATTERN t Some = Some rest ->
  forall c r', rest = c :: r' -> is_space c = false.
Proof.
  unfold JOIN_PHRASE_PATTERN. rewrite re_match_cat. intros H.
  apply re_match_consumes in H as (pre1 & rest1 & _ & H & _).
  cbv beta in H. rewrite re_match_cat in H.
  apply re_match_consumes in H as (pre2 & rest2 & _ & H & _).
  cbv beta in H. unfold ws in H. exact (star_rest is_space rest2 rest H).
Qed.

Lemma join_space_prefix w t x :
  is_space w = true ->
  re_match JOIN_PHRASE_PATTERN t Some = Some x ->
  re_match JOIN_PHRASE_PATTERN (w :: t) Some = Some x.
Proof.
  unfold JOIN_PHRASE_PATTERN. rewrite !re_match_cat. unfold ws at 1 3.
  intros Hw H. rewrite star_cons by exact Hw. rewrite H. reflexivity.
Qed.

Lemma match_here_rest pattern t n :
  match_here pattern t = Some n ->
  re_match pattern t Some = Some (drop n t).
Proof.
  unfold match_here.
  destruct (re_match pattern t Some) as [rest | ] eqn:E; [ | discriminate ].
  intros H. inversion H; subst n; clear H.
  apply re_match_consumes in E as (pre & rest' & -> & Hk & _).
  inversion Hk; subst rest'.
  rewrite length_app. replace (length pre + length rest - length rest)
    with (length pre) by lia.
  rewrite drop_app_length. reflexivity.
Qed.

Lemma tokens_head pattern str p a artists matches :
  tokens pattern str p (a :: artists) matches ->
  exists t, drop p str = a ++ t.
Proof.
  inversion 1; subst.
  - exists []. rewrite app_nil_r. symmetry. apply substring_to_end.
  - eexists. symmetry. apply substring_drop. assumption.
Qed.

Lemma tokens_trim str p artists matches :
  tokens JOIN_PHRASE_PATTERN str p artists matches ->
  forall i a,
    artists !! i = Some a ->
    (i < length matches -> forall a' w, a = a' ++ [w] -> is_space w = false) /\
    (0 < i -> forall w a', a = w :: a' -> is_space w = false).
Proof.
  induction 1 as [ p Hp Hnone | p i0 e artists matches Hpi Hie He Hnone Hm Ht IH ];
    intros i a Ha.
  - split; [ simpl; lia | ].
    intros Hi. destruct i; [ lia | discriminate ].
  - destruct i as [ | i]; simpl in Ha.
    + inversion Ha; subst a; clear Ha. split; [ | lia ].
      intros _ a' w Ea.
      destruct (is_space w) eqn:Hw; [ exfalso | reflexivity ].
      assert (Hlen : length a' + 1 = i0 - p).
      { apply (f_equal length) in Ea.
        rewrite substring_length, length_app in Ea by lia. simpl in Ea. lia. }
      assert (Hd : drop (p + length a') str = w :: drop i0 str).
      { pose proof (substring_drop str p i0 Hpi) as Hs.
        rewrite Ea, <- app_assoc in Hs.
        rewrite <- drop_drop, <- Hs, drop_app_length.
        reflexivity. }
      specialize (Hnone (length a') ltac:(lia)).
      rewrite Hd in Hnone.
      apply match_here_rest in Hm.
      apply (join_space_prefix w _ _ Hw) in Hm.
      unfold match_here in Hnone. rewrite Hm in Hnone. discriminate.
    + destruct (IH i a Ha) as [IH1 IH2]. split.
      * simpl. intros Hi. apply IH1. lia.
      * intros _ w a' Ea. destruct i as [ | i]; [ | eapply IH2; [ lia | exact Ea ] ].
        destruct artists as [ | a0 artists]; [ discriminate | ].
        simpl in Ha. inversion Ha; subst a0.
        destruct (tokens_head _ _ _ _ _ _ Ht) as [t Hd].
        apply match_here_rest in Hm.
        rewrite drop_drop in Hm.
        replace (i0 + (e - i0)) with e in Hm by lia.
        rewrite Hd, Ea in Hm.
        eapply join_rest_no_space; [ exact Hm | reflexivity ].
Qed.

(** X3. Artists are trimmed where a join phrase is: the artist of a
    credit that has a join phrase does not end with white space, and the
    artist of every credit after the first does not begin with white
    space.  (The first artist can begin, and the last can end, with
    white space.) *)
Theorem parse_artists_trimmed (s : jsstring) (i : nat) (c : ArtistCredit) :
  parseArtistCreditsString s !! i = Some c ->
  (is_Some (joinPhrase c) ->
   forall a' w, artist c = a' ++ [w] -> is_space w = false) /\
  (0 < i -> forall w a', artist c = w :: a' -> is_space w = false).
Proof.
  intros Hc.
  assert (Hne : s <> []) by (intros ->; discriminate).
  pose proof (tokens_split_matchAll JOIN_PHRASE_PATTERN
                JOIN_PHRASE_PATTERN_nonnull s Hne) as Ht.
  pose proof (parse_nonempty s Hne) as Hp.
  pose proof Ht as Hj. apply tokens_joinPhrases in Hj as [Hj _].
  rewrite <- credit_first_joinPhrases, <- Hp in Hj.
  assert (Ha : map artist (parseArtistCreditsString s)
               = split JOIN_PHRASE_PATTERN s)
    by (rewrite Hp, credit_first_artists; apply credits_loop_artists).
  assert (Hai : split JOIN_PHRASE_PATTERN s !! i = Some (artist c))
    by (rewrite <- Ha, list_lookup_fmap, Hc; reflexivity).
  destruct (tokens_trim _ _ _ _ Ht i (artist c) Hai) as [T1 T2].
  split; [ | exact T2 ].
  intros Hsome. apply T1.
  assert (Hji : (map joinPhrase (parseArtistCreditsString s)) !! i
                = Some (joinPhrase c))
    by (rewrite list_lookup_fmap, Hc; reflexivity).
  rewrite Hj in Hji.
  destruct (Nat.lt_ge_cases i (length (matchAll JOIN_PHRASE_PATTERN s)))
    as [Hlt | Hge]; [ exact Hlt | exfalso ].
  rewrite lookup_app_r in Hji by (rewrite length_map; exact Hge).
  destruct (i - length (map _ (matchAll JOIN_PHRASE_PATTERN s))) as [ | n];
    simpl in Hji.
  - inversion Hji as [E]. rewrite <- E in Hsome. destruct Hsome; discriminate.
  - discriminate.
Qed.

Lemma parse_artists_trimmed_witness : is_space 65 = false.
Proof.
  exact (proj1 (parse_artists_trimmed (u16 "A , B") 0
                  {| artist := u16 "A"; creditedAs := Some (u16 "A");
                     joinPhrase := Some (u16 " , ") |} eq_refl)
           (ex_intro _ (u16 " , ") eq_refl) [] 65%N eq_refl).
Defined.

(** ** The groups of [getInputs] *)

Lemma groups_bounds n : n <= 3 * groups n /\ 3 * groups n < n + 3.
Proof.
  unfold groups, SIZE. simpl Nat.sub.
  pose proof (Nat.div_mod_eq (n + 2) 3) as H.
  pose proof (Nat.mod_upper_bound (n + 2) 3 ltac:(lia)) as Hm.
  lia.
Qed.

Lemma group_refs_seq n i :
  group_refs (group n i) = seq (i * 3) (Nat.min 3 (n - i * 3)).
Proof.
  unfold group_refs, group, elem, SIZE.
  cbn [artistInput creditedAsInput joinPhraseInput].
  destruct (Nat.ltb_spec (i * 3) n); destruct (Nat.ltb_spec (i * 3 + 1) n);
    destruct (Nat.ltb_spec (i * 3 + 2) n); try lia;
    cbn [omap list_omap id].
  - replace (Nat.min 3 (n - i * 3)) with 3 by lia. simpl.
    repeat f_equal; lia.
  - replace (Nat.min 3 (n - i * 3)) with 2 by lia. simpl.
    repeat f_equal; lia.
  - replace (Nat.min 3 (n - i * 3)) with 1 by lia. reflexivity.
  - replace (Nat.min 3 (n - i * 3)) with 0 by lia. reflexivity.
Qed.

Lemma group_refs_concat n g :
  g <= groups n ->
  concat (map (fun i => group_refs (group n i)) (seq 0 g))
  = seq 0 (Nat.min (g * 3) n).
Proof.
  pose proof (groups_bounds n) as Hb.
  induction g as [ | g IH ]; intros Hg; [ reflexivity | ].
  rewrite seq_S, map_app, concat_app, IH by lia. cbn [map concat Nat.add].
  rewrite app_nil_r, group_refs_seq.
  replace (Nat.min (g * 3) n) with (g * 3) by lia.
  rewrite <- seq_app. f_equal. lia.
Qed.

(** X4. [getInputs()] cuts the inputs of the bubble into groups without
    losing or repeating one: the inputs of the groups, in order, are all
    the inputs in document order.  There are as many groups as needed
    and no more; every group has an artist input, and every group but
    the last has all three. *)
Theorem getInputs_partition (pg : Page) :
  concat (map group_refs (getInputs 0 pg)) = seq 0 (length (inputs pg))
  /\ length (inputs pg) <= 3 * length (getInputs 0 pg)
  /\ 3 * length (getInputs 0 pg) < length (inputs pg) + 3
  /\ (forall i g, getInputs 0 pg !! i = Some g -> artistInput g = Some (i * 3))
  /\ (forall i g,
        getInputs 0 pg !! i = Some g -> S i < length (getInputs 0 pg) ->
        creditedAsInput g = Some (i * 3 + 1) /\
        joinPhraseInput g = Some (i * 3 + 2)).
Proof.
  pose proof (groups_bounds (length (inputs pg))) as Hb.
  split_and!.
  - rewrite getInputs_0.
    change (map group_refs (group (length (inputs pg)) <$> ?l))
      with (group_refs <$> (group (length (inputs pg)) <$> l)).
    rewrite <- list_fmap_compose.
    change (concat ((group_refs ∘ group (length (inputs pg))) <$> ?l))
      with (concat (map (fun i => group_refs (group (length (inputs pg)) i)) l)).
    rewrite group_refs_concat by lia. f_equal. lia.
  - rewrite getInputs_0_length. lia.
  - rewrite getInputs_0_length. lia.
  - intros i g Hg. apply getInputs_0_lookup_Some in Hg as [Hi ->].
    unfold group, elem, SIZE. simpl.
    destruct (Nat.ltb_spec (i * 3) (length (inputs pg))); [ reflexivity | lia ].
  - intros i g Hg Hi. rewrite getInputs_0_length in Hi.
    apply getInputs_0_lookup_Some in Hg as [_ ->].
    rewrite group_complete by lia. auto.
Qed.

Lemma getInputs_partition_witness :
  creditedAsInput (group 6 0) = Some 1 /\ joinPhraseInput (group 6 0) = Some 2.
Proof.
  exact (proj2 (proj2 (proj2 (proj2 (getInputs_partition two_slots))))
           0 (group 6 0) eq_refl (le_n 2)).
Defined.

(** ** [update] with an updater that changes nothing *)

Lemma read_credit_Normal g pg old pg' :
  read_credit g pg = (Normal old, pg') ->
  exists a c j ea ec ej,
    artistInput g = Some a /\ creditedAsInput g = Some c /\
    joinPhraseInput g = Some j /\
    inputs pg !! a = Some ea /\ inputs pg !! c = Some ec /\
    inputs pg !! j = Some ej /\
    old = {| artist := value ea; creditedAs := Some (value ec);
             joinPhrase := Some (value ej) |}.
Proof.
  unfold read_credit, bind, read_value, ret.
  destruct (artistInput g) as [a | ]; [ | discriminate ].
  destruct (inputs pg !! a) as [ea | ] eqn:Ha; [ | discriminate ].
  destruct (creditedAsInput g) as [c | ]; [ | discriminate ].
  destruct (inputs pg !! c) as [ec | ] eqn:Hc; [ | discriminate ].
  destruct (joinPhraseInput g) as [j | ]; [ | discriminate ].
  destruct (inputs pg !! j) as [ej | ] eqn:Hj; [ | discriminate ].
  intros H. inversion H; subst. exists a, c, j, ea, ec, ej. auto 10.
Qed.

(** X5. [update] with an updater that returns the credit it was given
    changes no input, whatever the page and the index: every input is
    written the value it already has. *)
Theorem update_identity (pg : Page) (idx : Z) :
  inputs (exec_on (update idx (fun credit => credit)) pg) = inputs pg.
Proof.
  unfold exec_on, update.
  destruct (at_ (getInputs 0 pg) idx) as [g | ]; [ | reflexivity ].
  unfold bind.
  destruct (read_credit g pg) as [[old | e] pg1] eqn:Hr.
  - pose proof (read_credit_state g pg) as Hs. rewrite Hr in Hs.
    simpl in Hs. subst pg1.
    apply read_credit_Normal in Hr
      as (a & c & j & ea & ec & ej & Ga & Gc & Gj & Ha & Hc & Hj & ->).
    destruct (updateInputs_spec g
                {| artist := value ea; creditedAs := Some (value ec);
                   joinPhrase := Some (value ej) |} pg) as [d ->].
    cbn [snd inputs wrote artist creditedAs joinPhrase].
    rewrite Ga, Gc, Gj.
    rewrite (write_to_same _ _ _ Ha), (write_to_same _ _ _ Hc).
    apply (write_to_same _ _ _ Hj).
  - pose proof (read_credit_state g pg) as Hs. rewrite Hr in Hs.
    simpl in Hs |- *. rewrite Hs. reflexivity.
Qed.

(** ** What [fill] and [append] write *)

Lemma slots_inputs_length sls : length (slots_inputs sls) = 3 * length sls.
Proof.
  unfold slots_inputs. induction sls as [ | [[a c] j] sls IH ]; simpl in *; lia.
Qed.

Lemma slots_inputs_app sls1 sls2 :
  slots_inputs (sls1 ++ sls2) = slots_inputs sls1 ++ slots_inputs sls2.
Proof. unfold slots_inputs. rewrite map_app, concat_app. reflexivity. Qed.

Lemma write_slot_inputs a c j credit l :
  write_to (Some 2) (joinPhrase credit)
    (write_to (Some 1) (creditedAs credit)
       (write_to (Some 0) (Some (artist credit)) (a :: c :: j :: l)))
  = slot_inputs (write_slot (a, c, j) credit) ++ l.
Proof. reflexivity. Qed.

Lemma write_credits_exact credits :
  forall sls pre rest idx gs n pg,
    length sls = length credits ->
    inputs pg = pre ++ slots_inputs sls ++ rest ->
    length pre = idx * 3 ->
    (idx + length credits) * 3 <= n ->
    (forall j, j < idx + length credits -> gs !! j = Some (group n j)) ->
    exists d,
      write_credits gs idx credits pg
      = (Normal tt,
         wrote (pre ++ slots_inputs (zip_with write_slot sls credits) ++ rest)
               d pg).
Proof.
  induction credits as [ | credit credits IH ];
    intros sls pre rest idx gs n pg Hlen Hin Hpre Hn Hgs.
  - destruct sls; [ | discriminate ]. exists (dispatched pg).
    cbn [write_credits zip_with]. unfold ret.
    rewrite <- Hin, wrote_same. reflexivity.
  - destruct sls as [ | [[a c] j] sls]; [ discriminate | ].
    simpl in Hlen, Hn. cbn [write_credits].
    rewrite (Hgs idx) by (simpl; lia).
    rewrite group_complete by lia.
    match goal with
    | |- context [updateInputs (Some ?g) credit] =>
        destruct (updateInputs_spec g credit pg) as [d1 Hu]
    end.
    rewrite (bind_Normal _ _ _ _ _ Hu).
    cbn [artistInput creditedAsInput joinPhraseInput].
    set (l1 := write_to _ _ (write_to _ _ (write_to _ _ (inputs pg)))).
    assert (Hl1 : l1 = (pre ++ slot_inputs (write_slot (a, c, j) credit))
                       ++ slots_inputs sls ++ rest).
    { subst l1. rewrite Hin.
      replace (idx * 3) with (length pre + 0) by lia.
      replace (length pre + 0 + 1) with (length pre + 1) by lia.
      replace (length pre + 0 + 2) with (length pre + 2) by lia.
      rewrite !write_to_app_r.
      change (slots_inputs ((a, c, j) :: sls) ++ rest)
        with (a :: c :: j :: slots_inputs sls ++ rest).
      rewrite write_slot_inputs, <- app_assoc. reflexivity. }
    destruct (IH sls (pre ++ slot_inputs (write_slot (a, c, j) credit)) rest
                (S idx) gs n (wrote l1 d1 pg)) as [d Hw].
    + lia.
    + exact Hl1.
    + rewrite length_app. simpl. lia.
    + simpl. lia.
    + intros j0 Hj0. apply Hgs. simpl. lia.
    + exists d. rewrite Hw, wrote_wrote. cbn [zip_with].
      change (slots_inputs (write_slot (a, c, j) credit :: ?t))
        with (slot_inputs (write_slot (a, c, j) credit) ++ slots_inputs t).
      rewrite <- !app_assoc. reflexivity.
Qed.

Lemma getInputs_complete pg j :
  j * 3 + 2 < length (inputs pg) ->
  getInputs 0 pg !! j = Some (group (length (inputs pg)) j).
Proof.
  intros Hj. apply getInputs_0_lookup.
  pose proof (groups_bounds (length (inputs pg))). lia.
Qed.

Lemma fill_write_zip
    (host : list HTMLInputElement -> list HTMLInputElement)
    (credits : list ArtistCredit) (sls : list Slot)
    (rest : list HTMLInputElement) (pg : Page) :
  length sls = length credits ->
  inputs pg = slots_inputs sls ++ rest ->
  exists d,
    run_task host (FillWrite credits) pg
    = (Normal tt,
       wrote (slots_inputs (zip_with write_slot sls credits) ++ rest) d pg).
Proof.
  intros Hlen Hin. unfold run_task.
  destruct (write_credits_exact credits sls [] rest 0 (getInputs 0 pg)
              (length (inputs pg)) pg Hlen Hin eq_refl) as [d ->].
  - rewrite Hin, length_app, slots_inputs_length. simpl. lia.
  - intros j Hj. apply getInputs_complete.
    rewrite Hin, length_app, slots_inputs_length. simpl in Hj. lia.
  - exists d. reflexivity.
Qed.

(** X6. The write of [fill] on a bubble that has a slot for every
    credit: it ends without an error, slot [i] is what [updateInputs]
    makes of it with credit [i] (each input written when the credit has
    a non-empty value for it and the input is enabled), and whatever
    comes after those slots is as before. *)
Theorem fill_write_slots
    (host : list HTMLInputElement -> list HTMLInputElement)
    (credits : list ArtistCredit) (sls : list Slot)
    (rest : list HTMLInputElement) (pg : Page) :
  length sls = length credits ->
  inputs pg = slots_inputs sls ++ rest ->
  fst (run_task host (FillWrite credits) pg) = Normal tt /\
  inputs (exec_on (run_task host (FillWrite credits)) pg)
  = slots_inputs (zip_with write_slot sls credits) ++ rest.
Proof.
  intros Hlen Hin. unfold exec_on.
  destruct (fill_write_zip host credits sls rest pg Hlen Hin) as [d ->].
  split; reflexivity.
Qed.

Lemma fill_write_slots_witness :
  inputs (exec_on (run_task add_slot
                     (FillWrite [ {| artist := u16 "B"; creditedAs := None;
                                     joinPhrase := Some [] |} ]))
            two_slots)
  = [ inp "B"; inp ""; inp " & "; inp "Chara"; inp ""; inp "x" ].
Proof.
  exact (proj2 (fill_write_slots add_slot
                  [ {| artist := u16 "B"; creditedAs := None;
                       joinPhrase := Some [] |} ]
                  [ (inp "Other", inp "", inp " & ") ]
                  [ inp "Chara"; inp ""; inp "x" ] two_slots
                  eq_refl eq_refl)).
Defined.

Section HostRunsFurther.

Variable host : list HTMLInputElement -> list HTMLInputElement.

Lemma run_tasks_clicks_page n :
  forall ts pg,
    run_tasks host (replicate n AddItemClick ++ ts) pg
    = run_tasks host ts
        {| inputs := Nat.iter n host (inputs pg); clicks := clicks pg + n;
           dispatched := dispatched pg; alerts := alerts pg;
           timers := timers pg; uncaught := uncaught pg |}.
Proof.
  induction n as [ | n IH ]; intros ts pg; simpl.
  - rewrite Nat.add_0_r. destruct pg; reflexivity.
  - rewrite IH. cbn [inputs clicks dispatched alerts timers uncaught].
    replace (S (clicks pg) + n) with (clicks pg + S n) by lia.
    replace (Nat.iter n host (host (inputs pg)))
      with (host (Nat.iter n host (inputs pg))); [ reflexivity | ].
    clear. induction n as [ | n IHn ]; simpl; [ | rewrite IHn ]; reflexivity.
Qed.

End HostRunsFurther.

Lemma iter_add_slot n l :
  Nat.iter n add_slot l = l ++ slots_inputs (replicate n blank_slot).
Proof.
  induction n as [ | n IH ]; simpl.
  - rewrite app_nil_r. reflexivity.
  - rewrite IH. unfold add_slot. rewrite <- app_assoc. f_equal.
    change (replicate n blank_slot) with (replicate n blank_slot).
    clear. induction n as [ | n IHn ]; [ reflexivity | ].
    simpl. change (slots_inputs (blank_slot :: ?t))
      with (blank :: blank :: blank :: slots_inputs t).
    rewrite <- IHn. reflexivity.
Qed.

(** [fill] run to the end with any host, given what the clicks make
    of the bubble: complete slots [padded], at least one per credit. *)
Lemma fill_run_host (host : list HTMLInputElement -> list HTMLInputElement)
    (credits : list ArtistCredit) (padded : list Slot) (pg : Page) :
  timers pg = [] ->
  Nat.iter (length credits - length (getInputs 0 pg)) host (inputs pg)
  = slots_inputs padded ->
  length credits <= length padded ->
  let pg' := run host (fill credits) pg in
  inputs pg'
  = slots_inputs (zip_with write_slot (take (length credits) padded) credits
                  ++ drop (length credits) padded)
  /\ uncaught pg' = uncaught pg /\ timers pg' = []
  /\ clicks pg' = clicks pg + (length credits - length (getInputs 0 pg))
  /\ alerts pg' = alerts pg.
Proof.
  intros Ht Hit Hpad pg'. subst pg'.
  unfold run, exec_on, run_timers. rewrite fill_spec by exact Ht.
  cbn [snd timers with_timers]. rewrite map_snd_replicate. cbn [map snd].
  rewrite run_tasks_clicks_page.
  cbn [inputs clicks dispatched alerts timers uncaught with_timers].
  rewrite Hit.
  set (pg1 := {| inputs := slots_inputs padded |}).
  cbn [run_tasks].
  destruct (fill_write_zip host credits (take (length credits) padded)
              (slots_inputs (drop (length credits) padded)) pg1) as [d Hw].
  - rewrite length_take. lia.
  - subst pg1. cbn [inputs].
    rewrite <- slots_inputs_app, take_drop. reflexivity.
  - rewrite Hw. subst pg1.
    cbn [inputs clicks dispatched alerts timers uncaught wrote].
    rewrite slots_inputs_app. split_and!; reflexivity.
Qed.

(** X7. [fill] run to the end on a bubble of complete slots, with no
    timer pending and a host that adds a slot per click: the bubble ends
    with a slot for every credit (blank slots added when there were too
    few), credit [i] written to slot [i], the slots beyond the credits
    untouched, and no error. *)
Theorem fill_complete_page (credits : list ArtistCredit) (sls : list Slot)
    (pg : Page) :
  inputs pg = slots_inputs sls -> timers pg = [] ->
  let padded := sls ++ replicate (length credits - length sls) blank_slot in
  let pg' := run add_slot (fill credits) pg in
  inputs pg'
  = slots_inputs (zip_with write_slot (take (length credits) padded) credits
                  ++ drop (length credits) padded)
  /\ uncaught pg' = uncaught pg /\ timers pg' = []
  /\ clicks pg' = clicks pg + (length credits - length sls)
  /\ alerts pg' = alerts pg.
Proof.
  intros Hin Ht padded.
  assert (Hs : length (getInputs 0 pg) = length sls)
    by (rewrite getInputs_0_length, Hin, slots_inputs_length;
        apply groups_complete).
  rewrite <- Hs. apply fill_run_host; [ exact Ht | | ].
  - rewrite iter_add_slot, Hin, <- slots_inputs_app, Hs. reflexivity.
  - subst padded. rewrite length_app, length_replicate. lia.
Qed.

Lemma fill_complete_page_witness :
  inputs (run add_slot (fill (parseArtistCreditsString (u16 "A, B"))) one_slot)
  = [ inp "A"; inp "A"; inp ", "; inp "B"; blank; blank ].
Proof.
  exact (proj1 (fill_complete_page (parseArtistCreditsString (u16 "A, B"))
                  [ (inp "A, B", inp "", inp "") ] one_slot eq_refl eq_refl)).
Defined.

Lemma append_write_last host credit sls last pg :
  inputs pg = slots_inputs (sls ++ [last]) ->
  exists d,
    run_task host (AppendWrite credit) pg
    = (Normal tt, wrote (slots_inputs (sls ++ [write_slot last credit])) d pg).
Proof.
  intros Hin. unfold run_task.
  assert (Hn : length (inputs pg) = 3 * S (length sls))
    by (rewrite Hin, slots_inputs_length, length_app; simpl; lia).
  rewrite getInputs_last, Hn, groups_complete.
  cbn [Nat.eqb]. replace (S (length sls) - 1) with (length sls) by lia.
  rewrite group_complete by lia.
  match goal with
  | |- context [updateInputs (Some ?g) credit pg] =>
      destruct (updateInputs_spec g credit pg) as [d ->]
  end.
  exists d. cbn [artistInput creditedAsInput joinPhraseInput].
  rewrite Hin, !slots_inputs_app.
  replace (length sls * 3) with (length (slots_inputs sls) + 0)
    by (rewrite slots_inputs_length; lia).
  replace (length (slots_inputs sls) + 0 + 1)
    with (length (slots_inputs sls) + 1) by lia.
  replace (length (slots_inputs sls) + 0 + 2)
    with (length (slots_inputs sls) + 2) by lia.
  rewrite !write_to_app_r.
  destruct last as [[a c] j].
  change (slots_inputs [(a, c, j)]) with [a; c; j].
  rewrite write_slot_inputs.
  destruct (write_slot (a, c, j) credit) as [[a' c'] j']. reflexivity.
Qed.

Lemma append_run host credit sls last pg :
  host (inputs pg) = slots_inputs (sls ++ [last]) -> timers pg = [] ->
  let pg' := run host (append host credit) pg in
  inputs pg' = slots_inputs (sls ++ [write_slot last credit]) /\
  clicks pg' = S (clicks pg) /\ uncaught pg' = uncaught pg /\
  alerts pg' = alerts pg.
Proof.
  intros Hh Ht pg'. subst pg'.
  unfold run, exec_on, append, bind, click, setTimeout, run_timers.
  cbn [fst snd inputs clicks dispatched alerts timers uncaught with_timers].
  rewrite Ht. cbn [insert_timer map snd run_tasks].
  match goal with
  | |- context [run_task host (AppendWrite credit) ?q] =>
      destruct (append_write_last host credit sls last q Hh) as [d ->]
  end.
  split_and!; reflexivity.
Qed.

Lemma write_blank_slot credit : write_slot blank_slot credit = credit_slot credit.
Proof.
  unfold write_slot, blank_slot, credit_slot, written, blank.
  cbn [disabled negb]. rewrite !andb_true_r.
  destruct (artist credit), (creditedAs credit) as [[ | ] | ],
    (joinPhrase credit) as [[ | ] | ]; reflexivity.
Qed.

(** X8. [append] on a bubble of complete slots, with no timer pending
    and a host that adds a slot on the click: the bubble ends with one
    slot more, the earlier slots as they were, and the new slot holding
    the credit's non-empty values. *)
Theorem append_new_slot (credit : ArtistCredit) (sls : list Slot) (pg : Page) :
  inputs pg = slots_inputs sls -> timers pg = [] ->
  let pg' := run add_slot (append add_slot credit) pg in
  inputs pg' = slots_inputs (sls ++ [credit_slot credit]) /\
  clicks pg' = S (clicks pg) /\ uncaught pg' = uncaught pg /\
  alerts pg' = alerts pg.
Proof.
  intros Hin Ht. rewrite <- write_blank_slot.
  apply append_run; [ | exact Ht ].
  unfold add_slot. rewrite Hin, slots_inputs_app. reflexivity.
Qed.

Lemma append_new_slot_witness :
  inputs (run add_slot
            (append add_slot
               {| artist := u16 "B"; creditedAs := None;
                  joinPhrase := Some (u16 ")") |}) one_slot)
  = [ inp "A, B"; inp ""; inp ""; inp "B"; inp ""; inp ")" ].
Proof.
  exact (proj1 (append_new_slot
                  {| artist := u16 "B"; creditedAs := None;
                     joinPhrase := Some (u16 ")") |}
                  [ (inp "A, B", inp "", inp "") ] one_slot eq_refl eq_refl)).
Defined.

(** X9. [append] when the host has not added the slot by the time the
    timer fires: the credit is written over the slot that was last
    before, whose inputs take the credit's non-empty values. *)
Theorem append_stale_slot (credit : ArtistCredit) (sls : list Slot)
    (last : Slot) (pg : Page) :
  inputs pg = slots_inputs (sls ++ [last]) -> timers pg = [] ->
  let pg' := run no_slot (append no_slot credit) pg in
  inputs pg' = slots_inputs (sls ++ [write_slot last credit]) /\
  clicks pg' = S (clicks pg) /\ uncaught pg' = uncaught pg /\
  alerts pg' = alerts pg.
Proof.
  intros Hin Ht. apply append_run; [ exact Hin | exact Ht ].
Qed.

Lemma append_stale_slot_witness :
  inputs (run no_slot
            (append no_slot
               {| artist := u16 "B"; creditedAs := None;
                  joinPhrase := Some (u16 ")") |}) one_slot)
  = [ inp "B"; inp ""; inp ")" ].
Proof.
  exact (proj1 (append_stale_slot
                  {| artist := u16 "B"; creditedAs := None;
                     joinPhrase := Some (u16 ")") |}
                  [] (inp "A, B", inp "", inp "") one_slot eq_refl eq_refl)).
Defined.

(** ** The command that parses and fills *)

Lemma zip_write_blank credits :
  zip_with write_slot (replicate (length credits) blank_slot) credits
  = map credit_slot credits.
Proof.
  induction credits as [ | c credits IH ]; [ reflexivity | ].
  cbn [length replicate zip_with map].
  rewrite IH, write_blank_slot. reflexivity.
Qed.

Lemma credit_slot_text credits :
  concat (map slot_text (map credit_slot credits)) = credits_text credits.
Proof.
  unfold credits_text. induction credits as [ | c credits IH ];
    [ reflexivity | ].
  simpl. rewrite IH. reflexivity.
Qed.

(** X10. The command that parses and fills, on a fresh bubble: one
    enabled slot whose artist input holds the text [s] and whose other
    inputs are empty, no timer pending, a host that adds a slot per
    click.  When the first artist of the parse is not empty, the bubble
    ends with one slot per credit, each showing its credit and nothing
    else, and the artists and join phrases of the slots, read in order,
    spell [s]; nothing is alerted and no error is thrown. *)
Theorem parse_and_fill_fresh (s : jsstring) (c : ArtistCredit)
    (rest : list ArtistCredit) :
  parseArtistCreditsString s = c :: rest ->
  truthy (artist c) = true ->
  let pg := page_of (slot_inputs ({| value := s; disabled := false |},
                                  blank, blank)) in
  let pg' := run add_slot parseArtistCredits pg in
  inputs pg' = slots_inputs (map credit_slot (parseArtistCreditsString s))
  /\ concat (map slot_text (map credit_slot (parseArtistCreditsString s))) = s
  /\ alerts pg' = [] /\ uncaught pg' = [].
Proof.
  intros Hp Hc pg pg'.
  assert (Hne : s <> [])
    by (intros ->; discriminate).
  assert (Hcmd : parseArtistCredits pg = fill (parseArtistCreditsString s) pg).
  { unfold parseArtistCredits.
    change (first_artist_value 0 pg) with (Some s).
    destruct s; [ contradiction | reflexivity ]. }
  destruct (fill_run_host add_slot (parseArtistCreditsString s)
              ([ ({| value := s; disabled := false |}, blank, blank) ]
               ++ replicate (length (parseArtistCreditsString s) - 1)
                    blank_slot)
              pg eq_refl) as (Hin & Hu & _ & _ & Ha).
  { rewrite iter_add_slot, slots_inputs_app. reflexivity. }
  { rewrite length_app, length_replicate. simpl. lia. }
  subst pg'. unfold run, exec_on in *. rewrite Hcmd.
  split_and!.
  - rewrite Hin, Hp. cbn [length app Nat.sub replicate take drop zip_with].
    rewrite Nat.sub_0_r.
    rewrite firstn_all2 by (rewrite length_replicate; lia).
    rewrite skipn_all2 by (rewrite length_replicate; lia).
    rewrite app_nil_r, zip_write_blank. cbn [map]. f_equal. f_equal.
    unfold write_slot, credit_slot, written, blank.
    cbn [disabled negb]. rewrite Hc, !andb_true_r.
    destruct (creditedAs c) as [[ | ] | ], (joinPhrase c) as [[ | ] | ];
      reflexivity.
  - rewrite credit_slot_text.
    unfold parseArtistCreditsString.
    destruct s as [ | c0 s0]; [ contradiction | ].
    cbn [truthy]. rewrite credit_first_text.
    apply (tokens_credits_text JOIN_PHRASE_PATTERN (c0 :: s0) 0).
    apply tokens_split_matchAll; [ reflexivity | discriminate ].
  - exact Ha.
  - exact Hu.
Qed.

Lemma parse_and_fill_fresh_witness :
  inputs (run add_slot parseArtistCredits
            (page_of (slot_inputs (inp "A, B", blank, blank))))
  = [ inp "A"; inp "A"; inp ", "; inp "B"; blank; blank ].
Proof.
  exact (proj1 (parse_and_fill_fresh (u16 "A, B")
                  {| artist := u16 "A"; creditedAs := Some (u16 "A");
                     joinPhrase := Some (u16 ", ") |}
                  [ {| artist := u16 "B"; creditedAs := None;
                       joinPhrase := None |} ]
                  eq_refl eq_refl)).
Defined.

(** ** The commands without text to work on *)

Lemma first_artist_value_last pg :
  first_artist_value (-1) pg
  = if groups (length (inputs pg)) =? 0 then None
    else value <$> inputs pg !! ((groups (length (inputs pg)) - 1) * 3).
Proof.
  unfold first_artist_value. rewrite getInputs_last.
  pose proof (groups_bounds (length (inputs pg))) as Hb.
  destruct (Nat.eqb_spec (groups (length (inputs pg))) 0) as [E | E];
    [ reflexivity | ].
  cbn [mbind option_bind]. unfold group, elem, SIZE.
  cbn [artistInput].
  destruct (Nat.ltb_spec ((groups (length (inputs pg)) - 1) * 3)
              (length (inputs pg))); [ reflexivity | lia ].
Qed.

Lemma first_artist_value_first pg :
  first_artist_value 0 pg = value <$> inputs pg !! 0.
Proof.
  unfold first_artist_value. rewrite head_lookup.
  pose proof (groups_bounds (length (inputs pg))) as Hb.
  destruct (inputs pg) as [ | el l] eqn:E.
  - rewrite getInputs_0, E. reflexivity.
  - rewrite getInputs_0_lookup by (rewrite E in *; simpl in *; lia).
    rewrite E. reflexivity.
Qed.

(** X11. Without text to work on a command only shows its message.  When
    the bubble has no input, or the artist input of its last slot is
    empty, [appendCharacterCV] ends with its one alert and the page
    otherwise as it was: no input written, nothing clicked or
    scheduled, and none of the alerts of a failed lookup shown.  So does
    [parseArtistCredits] when the bubble has no input or the artist
    input of its first slot is empty. *)
Theorem commands_need_text
    (host : list HTMLInputElement -> list HTMLInputElement)
    (preview : list PreviewArtist) (relations : jsstring -> list Relation)
    (config : option StoredPhrases) (pg : Page) :
  ((inputs pg = [] \/
    exists el,
      inputs pg !! ((length (getInputs 0 pg) - 1) * 3) = Some el /\
      value el = []) ->
   appendCharacterCV host preview relations config pg
   = (Normal tt, alerted (u16 "Please enter a character first.") pg))
  /\
  ((inputs pg = [] \/ exists el, inputs pg !! 0 = Some el /\ value el = []) ->
   parseArtistCredits pg
   = (Normal tt,
      alerted (u16 "Please enter the artist credits to parse in the first input box.")
        pg)).
Proof.
  split.
  - intros H. unfold appendCharacterCV. rewrite first_artist_value_last.
    rewrite getInputs_0_length in H.
    destruct H as [H | (el & H & Hv)].
    + rewrite H. reflexivity.
    + rewrite H. cbn [fmap option_fmap option_map]. rewrite Hv.
      destruct (groups (length (inputs pg)) =? 0); reflexivity.
  - intros H. unfold parseArtistCredits. rewrite first_artist_value_first.
    destruct H as [H | (el & H & Hv)].
    + rewrite H. reflexivity.
    + rewrite H. cbn [fmap option_fmap option_map]. rewrite Hv. reflexivity.
Qed.

Lemma commands_need_text_witness :
  parseArtistCredits (page_of [blank; blank; blank])
  = (Normal tt,
     alerted (u16 "Please enter the artist credits to parse in the first input box.")
       (page_of [blank; blank; blank])).
Proof.
  apply (proj2 (commands_need_text add_slot [] sample_relations None
                  (page_of [blank; blank; blank]))).
  right. exists blank. split; reflexivity.
Defined.

(** ** The flow needs a voice actor *)

Lemma find_is_voice_actor l r :
  find is_voice_actor l = Some r ->
  r ∈ l /\ type_id r = RELATIONSHIP_ID /\ direction r = u16 "backward" /\
  ended r = false.
Proof.
  intros H. apply find_some in H as [Hin Hv].
  unfold is_voice_actor in Hv.
  apply andb_true_iff in Hv as [Hv He].
  apply andb_true_iff in Hv as [Ht Hd].
  apply bool_decide_eq_true in Ht. apply bool_decide_eq_true in Hd.
  apply negb_true_iff in He.
  split_and!; auto. apply list_elem_of_In, Hin.
Qed.

Lemma appendCharacterCV_cases
    (host : list HTMLInputElement -> list HTMLInputElement)
    (preview : list PreviewArtist) (relations : jsstring -> list Relation)
    (config : option StoredPhrases) (pg : Page) :
  (exists msg,
     appendCharacterCV host preview relations config pg
     = (Normal tt, alerted msg pg)) \/
  appendCharacterCV host preview relations config pg = (Normal tt, pg) \/
  (exists characterName a g r,
     first_artist_value (-1) pg = Some characterName /\
     a ∈ preview /\ name a = characterName /\ gid a = Some g /\
     r ∈ relations g /\ type_id r = RELATIONSHIP_ID /\
     direction r = u16 "backward" /\ ended r = false /\
     truthy (relation_artist_id r) = true).
Proof.
  remember (appendCharacterCV host preview relations config pg) as res eqn:E.
  revert E. unfold appendCharacterCV.
  destruct (first_artist_value (-1) pg) as [characterName | ] eqn:Hn;
    [ | intros ->; left; eexists; reflexivity ].
  destruct (truthy characterName) eqn:Hnt;
    [ | intros ->; left; eexists; reflexivity ].
  cbv zeta. unfold bind at 1. unfold getCharacterMBID.
  destruct (find _ preview) as [a | ] eqn:Hf;
    [ | intros ->; left; eexists; reflexivity ].
  destruct (gid a) as [g | ] eqn:Hg;
    [ | intros ->; left; eexists; reflexivity ].
  unfold ret at 1. unfold bind at 1. unfold getVoiceActor.
  destruct (truthy g) eqn:Hgt; [ | intros ->; right; left; reflexivity ].
  destruct (find is_voice_actor (relations g)) as [r | ] eqn:Hr;
    [ | intros ->; left; eexists; reflexivity ].
  unfold ret at 1. unfold append_voice_actor.
  destruct (truthy (relation_artist_id r)) eqn:Hm;
    [ | intros ->; right; left; reflexivity ].
  intros _. right. right.
  apply find_some in Hf as [Hin Hname].
  apply bool_decide_eq_true in Hname.
  apply find_is_voice_actor in Hr as (Hrin & Ht & Hd & He).
  exists characterName, a, g, r. split_and!; auto.
  apply list_elem_of_In, Hin.
Qed.

(** X12. [appendCharacterCV] touches the slots only for a voice actor:
    whenever its run changes an input, dispatches an event, clicks the
    add button or sets a timer, the last slot names a character that a
    link of the preview text shows, and the relations of that character
    contain one of the voice-actor type, backward and not ended, whose
    artist is not empty. *)
Theorem append_needs_voice_actor
    (host : list HTMLInputElement -> list HTMLInputElement)
    (preview : list PreviewArtist) (relations : jsstring -> list Relation)
    (config : option StoredPhrases) (pg : Page) :
  let pg' := exec_on (appendCharacterCV host preview relations config) pg in
  (inputs pg' <> inputs pg \/ dispatched pg' <> dispatched pg \/
   clicks pg' <> clicks pg \/ timers pg' <> timers pg) ->
  exists characterName a g r,
    first_artist_value (-1) pg = Some characterName /\
    a ∈ preview /\ name a = characterName /\ gid a = Some g /\
    r ∈ relations g /\ type_id r = RELATIONSHIP_ID /\
    direction r = u16 "backward" /\ ended r = false /\
    truthy (relation_artist_id r) = true.
Proof.
  intros pg' H. subst pg'. unfold exec_on in H.
  destruct (appendCharacterCV_cases host preview relations config pg)
    as [[msg E] | [E | E]]; [ | | exact E ];
    rewrite E in H; simpl in H; destruct H as [H | [H | [H | H]]]; congruence.
Qed.

Lemma append_needs_voice_actor_witness :
  exists characterName a g r,
    first_artist_value (-1) two_slots = Some characterName /\
    a ∈ sample_preview /\ name a = characterName /\ gid a = Some g /\
    r ∈ sample_relations g /\ type_id r = RELATIONSHIP_ID /\
    direction r = u16 "backward" /\ ended r = false /\
    truthy (relation_artist_id r) = true.
Proof.
  apply (append_needs_voice_actor add_slot sample_preview sample_relations None
           two_slots).
  right. right. left. vm_compute. discriminate.
Defined.

(** ** The flow on a bubble of one slot *)

Lemma appendCharacterCV_found
    (host : list HTMLInputElement -> list HTMLInputElement)
    (preview : list PreviewArtist) (relations : jsstring -> list Relation)
    (config : option StoredPhrases) (pg : Page)
    (characterName g : jsstring) (a : PreviewArtist) (r : Relation) :
  first_artist_value (-1) pg = Some characterName ->
  truthy characterName = true ->
  find (fun a => bool_decide (name a = characterName)) preview = Some a ->
  gid a = Some g -> truthy g = true ->
  find is_voice_actor (relations g) = Some r ->
  appendCharacterCV host preview relations config pg
  = append_voice_actor host (getCVJoinPhrases config)
      (Some (relation_artist_id r)) pg.
Proof.
  intros Hname Hname_t Hfind Hgid Hg Hrel. unfold appendCharacterCV.
  rewrite Hname, Hname_t. cbv zeta.
  unfold getCharacterMBID. rewrite Hfind, Hgid.
  rewrite (bind_Normal _ _ pg (Some g) pg) by reflexivity.
  unfold getVoiceActor. rewrite Hg, Hrel.
  rewrite (bind_Normal _ _ pg (Some (relation_artist_id r)) pg) by reflexivity.
  reflexivity.
Qed.

(** X13. The flow on a bubble of one complete slot, with no timer
    pending and a host that adds a slot on the click, both lookups
    succeeding with the performer [m]: there is no second-to-last slot,
    and the step that appends the separator does nothing; the join
    phrase of the only slot gets the opening token (written as
    [updateInputs] writes), and the new slot shows [m] and the closing
    token.  A token may be [null]; it is then not written. *)
Theorem append_character_cv_single_slot
    (preview : list PreviewArtist) (relations : jsstring -> list Relation)
    (config : option StoredPhrases) (pg : Page)
    (a c j : HTMLInputElement) (g m : jsstring) (ar : PreviewArtist)
    (r : Relation) :
  inputs pg = slot_inputs (a, c, j) -> timers pg = [] ->
  truthy (value a) = true ->
  find (fun x => bool_decide (name x = value a)) preview = Some ar ->
  gid ar = Some g -> truthy g = true ->
  find is_voice_actor (relations g) = Some r ->
  relation_artist_id r = m -> truthy m = true ->
  let cv := getCVJoinPhrases config in
  let pg' := run add_slot (appendCharacterCV add_slot preview relations config) pg in
  inputs pg'
  = slots_inputs
      [ (a, c, written j (fst (joinPhrases cv)));
        credit_slot {| artist := m; creditedAs := None;
                       joinPhrase := snd (joinPhrases cv) |} ]
  /\ clicks pg' = S (clicks pg) /\ alerts pg' = alerts pg
  /\ uncaught pg' = uncaught pg.
Proof.
  intros Hin Ht Ha Hfind Hgid Hg Hrel Hm Hm_t cv pg'.
  assert (Hlen : length (inputs pg) = 3) by (rewrite Hin; reflexivity).
  assert (Hname : first_artist_value (-1) pg = Some (value a))
    by (rewrite first_artist_value_last, Hlen, Hin; reflexivity).
  subst pg'. unfold run.
  unfold exec_on.
  rewrite (appendCharacterCV_found add_slot preview relations config pg
             (value a) g ar r Hname Ha Hfind Hgid Hg Hrel).
  rewrite Hm. unfold append_voice_actor. rewrite Hm_t. fold cv.
  assert (Hu2 : update (-2)
                  (fun credit =>
                     set_joinPhrase
                       (to_str (joinPhrase credit)
                        ++ token_str (separator cv) ++ u16 " ")
                       credit) pg
                = (Normal tt, pg)).
  { unfold update, at_. rewrite getInputs_0_length, Hlen. reflexivity. }
  rewrite (bind_Normal _ _ _ _ _ Hu2).
  assert (Hat : at_ (getInputs 0 pg) (-1)
                = Some (group (length (inputs pg)) 0)).
  { assert (Hg3 : groups 3 = 1) by reflexivity.
    rewrite (at_from_end _ 1) by (rewrite getInputs_0_length, Hlen, Hg3; lia).
    rewrite getInputs_0_length.
    rewrite getInputs_0_lookup by (rewrite Hlen, Hg3; lia).
    rewrite Hlen, Hg3. reflexivity. }
  destruct (update_with_joinPhrase pg (-1) 0 (fst (joinPhrases cv))
              a c j Hat) as [d Hu1]; try (rewrite Hin; reflexivity).
  rewrite (bind_Normal _ _ _ _ _ Hu1).
  rewrite Hin. cbn [slot_inputs Nat.mul Nat.add].
  change (<[2 := ?x]> [a; c; j]) with [a; c; x].
  match goal with
  | |- context [append add_slot ?cr ?q] =>
      destruct (append_run add_slot cr
                  [ (a, c, written j (fst (joinPhrases cv))) ]
                  blank_slot q eq_refl Ht) as (H1 & H2 & H3 & H4)
  end.
  rewrite write_blank_slot in H1.
  unfold run, exec_on in H1, H2, H3, H4.
  split_and!; [ exact H1 | exact H2 | exact H4 | exact H3 ].
Qed.

Lemma append_character_cv_single_slot_witness :
  inputs (run add_slot
            (appendCharacterCV add_slot sample_preview sample_relations None)
            (page_of [inp "Chara"; inp ""; inp ""]))
  = [ inp "Chara"; inp ""; inp " (CV "; inp "va-1"; blank; inp ")" ].
Proof.
  exact (proj1 (append_character_cv_single_slot sample_preview sample_relations
                  None (page_of [inp "Chara"; inp ""; inp ""])
                  (inp "Chara") (inp "") (inp "") (u16 "c-1") (u16 "va-1")
                  _ _ eq_refl eq_refl eq_refl eq_refl eq_refl eq_refl
                  eq_refl eq_refl eq_refl)).
Defined.

(** ** The configuration command *)

(** X14. Configuring and reading back, when each prompt of
    [setCVJoinPhrases] is answered with the default it shows.  A token
    that was a string is read back by [getCVJoinPhrases] as it was; a
    token that was [null], stored when an earlier prompt was cancelled,
    is read back as the string "null".  So the configuration read
    afterwards is the one read before exactly when none of its tokens
    was [null]; and after a run in which every prompt was cancelled,
    all three tokens become "null". *)
Theorem set_then_get_phrases
    (prompt : jsstring -> jsstring -> option jsstring)
    (config : option StoredPhrases) :
  (forall message default, prompt message default = Some default) ->
  let cv := getCVJoinPhrases config in
  let cv' := getCVJoinPhrases (Some (setCVJoinPhrases prompt config)) in
  cv' = {| joinPhrases := (Some (token_str (fst (joinPhrases cv))),
                           Some (token_str (snd (joinPhrases cv))));
           separator := Some (token_str (separator cv)) |}
  /\ (cv' = cv <->
      is_Some (fst (joinPhrases cv)) /\ is_Some (snd (joinPhrases cv)) /\
      is_Some (separator cv))
  /\ (forall cancel stored,
        (forall message default, cancel message default = None) ->
        config = Some (setCVJoinPhrases cancel stored) ->
        cv' = {| joinPhrases := (Some (u16 "null"), Some (u16 "null"));
                 separator := Some (u16 "null") |}).
Proof.
  intros Hp cv cv'.
  assert (E : cv' = {| joinPhrases := (Some (token_str (fst (joinPhrases cv))),
                                       Some (token_str (snd (joinPhrases cv))));
                       separator := Some (token_str (separator cv)) |}).
  { subst cv'. unfold setCVJoinPhrases. rewrite !Hp. reflexivity. }
  split_and!.
  - exact E.
  - rewrite E. destruct cv as [[t1 t2] s].
    cbn [joinPhrases separator fst snd]. split.
    + intros H. inversion H as [[H1 H2 H3]]. eauto.
    + intros ([x ->] & [y ->] & [z ->]). reflexivity.
  - intros cancel stored Hc ->. rewrite E. subst cv.
    unfold setCVJoinPhrases. rewrite !Hc. reflexivity.
Qed.

Lemma set_then_get_phrases_witness :
  getCVJoinPhrases
    (Some (setCVJoinPhrases (fun _ default => Some default) null_separator))
  = {| joinPhrases := (Some (u16 " (CV "), Some (u16 ")"));
       separator := Some (u16 "null") |}.
Proof.
  exact (proj1 (set_then_get_phrases (fun _ default => Some default)
                  null_separator (fun _ _ => eq_refl))).
Defined.

(** ** The links of the preview text *)

Lemma drop_spaces_head s c t : drop_spaces s = c :: t -> is_space c = false.
Proof.
  induction s as [ | d s IH ]; simpl; [ discriminate | ].
  destruct (is_space d) eqn:Hd; [ exact IH | ].
  intros H. inversion H; subst. exact Hd.
Qed.

Lemma drop_spaces_suffix s : exists pre, s = pre ++ drop_spaces s.
Proof.
  induction s as [ | d s [pre IH] ]; simpl; [ exists []; reflexivity | ].
  destruct (is_space d); [ | exists []; reflexivity ].
  exists (d :: pre). simpl. f_equal. exact IH.
Qed.

(** A trimmed string neither begins nor ends with white space. *)
Lemma trim_ends s :
  (forall c t, trim s = c :: t -> is_space c = false) /\
  (forall t c, trim s = t ++ [c] -> is_space c = false).
Proof.
  unfold trim. split.
  - intros c t H.
    destruct (drop_spaces_suffix (rev (drop_spaces s))) as [pre Hp].
    apply (f_equal (@rev N)) in Hp.
    rewrite rev_involutive, rev_app_distr, H in Hp.
    destruct (drop_spaces s) as [ | c' t'] eqn:E.
    + destruct (rev pre); discriminate.
    + simpl in Hp. inversion Hp; subst c'.
      eapply drop_spaces_head, E.
  - intros t c H.
    apply (f_equal (@rev N)) in H.
    rewrite rev_involutive, rev_app_distr in H. simpl in H.
    eapply drop_spaces_head, H.
Qed.

Lemma preview_artists_trimmed links :
  forall artists,
    preview_artists links = Normal artists ->
    forall a, a ∈ artists -> exists s, name a = trim s.
Proof.
  induction links as [ | link links IH ]; intros artists H a Ha; simpl in H.
  - inversion H; subst. apply elem_of_nil in Ha. contradiction.
  - destruct (link_artist link) as [a0 | e] eqn:El; [ | discriminate ].
    destruct (preview_artists links) as [l | e]; [ | discriminate ].
    inversion H; subst artists. apply elem_of_cons in Ha as [-> | Ha].
    + unfold link_artist in El.
      destruct (name_variation link).
      * destruct (head _) as [t | ]; [ | discriminate ].
        inversion El. eexists. reflexivity.
      * destruct (bdi_innerText link) as [t | ]; [ | discriminate ].
        inversion El. eexists. reflexivity.
    + eapply IH; [ reflexivity | exact Ha ].
Qed.

(** X15. The names read off the links are trimmed, the name typed in the
    slot is not: for a character name that begins or ends with white
    space, [getCharacterMBID] finds no link, whatever the preview text
    shows, and alerts that the character was not found. *)
Theorem padded_name_not_found (links : list PreviewLink)
    (artists : list PreviewArtist) (characterName : jsstring) (pg : Page) :
  preview_artists links = Normal artists ->
  ((exists c t, characterName = c :: t /\ is_space c = true) \/
   (exists t c, characterName = t ++ [c] /\ is_space c = true)) ->
  (forall a, a ∈ artists ->
     (forall c t, name a = c :: t -> is_space c = false) /\
     (forall t c, name a = t ++ [c] -> is_space c = false)) /\
  getCharacterMBID_links links characterName pg
  = (Normal None, alerted (u16 "Character not found in preview text.") pg).
Proof.
  intros Hl Hpad.
  assert (Htrim : forall a, a ∈ artists ->
     (forall c t, name a = c :: t -> is_space c = false) /\
     (forall t c, name a = t ++ [c] -> is_space c = false)).
  { intros a Ha.
    destruct (preview_artists_trimmed links artists Hl a Ha) as [s ->].
    apply trim_ends. }
  split; [ exact Htrim | ].
  unfold getCharacterMBID_links. rewrite Hl. unfold getCharacterMBID.
  rewrite find_None_forall; [ reflexivity | ].
  intros a Ha. apply bool_decide_eq_false. intros E.
  destruct (Htrim a Ha) as [H1 H2]. rewrite E in H1, H2.
  destruct Hpad as [(c & t & -> & Hc) | (t & c & -> & Hc)].
  - rewrite (H1 c t eq_refl) in Hc. discriminate.
  - rewrite (H2 t c eq_refl) in Hc. discriminate.
Qed.

Lemma padded_name_not_found_witness :
  getCharacterMBID_links [sample_link] (u16 "Chara ") two_slots
  = (Normal None,
     alerted (u16 "Character not found in preview text.") two_slots).
Proof.
  apply (proj2 (padded_name_not_found [sample_link] _ (u16 "Chara ") two_slots
                  eq_refl
                  (or_intror (ex_intro _ (u16 "Chara")
                                (ex_intro _ 32%N (conj eq_refl eq_refl)))))).
Defined.

(** The bound of [str_split] is enough: a larger one changes nothing. *)
Lemma str_split_fuel sep fuel :
  sep <> [] ->
  forall s, length s <= fuel ->
  str_split_from (S fuel) sep s = str_split_from fuel sep s.
Proof.
  intros Hsep. induction fuel as [ | fuel IH ]; intros s Hs.
  - destruct s; [ | simpl in Hs; lia ].
    destruct sep; [ contradiction | reflexivity ].
  - cbn [str_split_from].
    destruct (index_of sep s 0) as [i | ]; [ | reflexivity ].
    f_equal. apply IH. rewrite length_drop.
    destruct sep; [ contradiction | simpl in *; lia ].
Qed.

(** X16. The gid of a link is what follows the first ["/artist/"] of its
    address, up to the next one if there is one.  For an address made of
    a base, ["/artist/"] and an identifier, where ["/artist/"] occurs
    first at the end of the base and not in the identifier, the gid is
    the identifier; for an address without ["/artist/"] there is no gid. *)
Theorem link_gid (link : PreviewLink) (a : PreviewArtist) :
  link_artist link = Normal a ->
  (index_of ARTIST_PATH (link_href link) 0 = None -> gid a = None) /\
  (forall base mbid,
     link_href link = base ++ ARTIST_PATH ++ mbid ->
     index_of ARTIST_PATH (link_href link) 0 = Some (length base) ->
     index_of ARTIST_PATH mbid 0 = None ->
     gid a = Some mbid).
Proof.
  intros Hl.
  assert (Hg : gid a = str_split ARTIST_PATH (link_href link) !! 1).
  { unfold link_artist in Hl.
    destruct (name_variation link).
    - destruct (head _); [ | discriminate ]. inversion Hl. reflexivity.
    - destruct (bdi_innerText link); [ | discriminate ]. inversion Hl.
      reflexivity. }
  rewrite Hg. unfold str_split. split.
  - intros Hn. destruct (length (link_href link)); simpl; [ reflexivity | ].
    rewrite Hn. reflexivity.
  - intros base mbid Hh Hi Hm. rewrite Hh in *.
    rewrite !length_app. change (length ARTIST_PATH) with 8.
    replace (length base + (8 + length mbid))
      with (S (length base + 7 + length mbid)) by lia.
    cbn [str_split_from]. rewrite Hi.
    change (length ARTIST_PATH) with 8.
    cbn [lookup list_lookup].
    replace (length base + 8) with (length (base ++ ARTIST_PATH))
      by (rewrite length_app; reflexivity).
    rewrite app_assoc, drop_app_length.
    destruct (length base + 7 + length mbid); simpl; [ reflexivity | ].
    rewrite Hm. reflexivity.
Qed.

Lemma link_gid_witness :
  gid {| name := u16 "Chara"; gid := Some (u16 "c-1") |} = Some (u16 "c-1").
Proof.
  exact (proj2 (link_gid sample_link
                  {| name := u16 "Chara"; gid := Some (u16 "c-1") |} eq_refl)
           (u16 "https://musicbrainz.org") (u16 "c-1")
           eq_refl eq_refl eq_refl).
Defined.


(** ** The track tools *)

(** What the matcher consumes is a word of the pattern. *)
Lemma re_match_lang (r : regex) :
  forall s k x,
    re_match r s k = Some x ->
    exists pre rest, s = pre ++ rest /\ k rest = Some x /\ lang r pre.
Proof.
  induction r as [ | p | r1 IH1 r2 IH2 | r1 IH1 r2 IH2 | r1 IH1 | r1 IH1 ];
    intros s k x H; simpl in H.
  - exists [], s. split_and!; auto. reflexivity.
  - destruct s as [ | c s']; [ discriminate | ].
    destruct (p c) eqn:Hp; [ | discriminate ].
    exists [c], s'. split_and!; auto. simpl. eauto.
  - apply IH1 in H as (pre1 & rest1 & -> & H1 & L1).
    apply IH2 in H1 as (pre2 & rest2 & -> & H2 & L2).
    exists (pre1 ++ pre2), rest2. rewrite <- app_assoc.
    split_and!; auto. simpl. eauto.
  - destruct (re_match r1 s k) as [y | ] eqn:E1.
    + inversion H; subst y.
      apply IH1 in E1 as (pre & rest & -> & Hk & L).
      exists pre, rest. split_and!; auto. simpl. auto.
    + apply IH2 in H as (pre & rest & -> & Hk & L).
      exists pre, rest. split_and!; auto. simpl. auto.
  - revert H. generalize (length s) at 1. intros n. revert s.
    induction n as [ | n IHn ]; intros s H.
    + exists [], s. split_and!; auto. constructor.
    + match type of H with
      | match ?m with _ => _ end = _ => destruct m as [y | ] eqn:E1
      end.
      * inversion H; subst y.
        apply IH1 in E1 as (pre1 & rest1 & -> & Hk & L1).
        destruct (length rest1 <? length (pre1 ++ rest1)); [ | discriminate ].
        apply IHn in Hk as (pre2 & rest2 & -> & Hk & L2).
        exists (pre1 ++ pre2), rest2. rewrite <- app_assoc.
        split_and!; auto. simpl. constructor; assumption.
      * exists [], s. split_and!; auto. constructor.
  - match type of H with
    | match ?m with _ => _ end = _ => destruct m as [y | ] eqn:E1
    end.
    + inversion H; subst y.
      apply IH1 in E1 as (pre1 & rest1 & -> & Hk & L1).
      destruct (length rest1 <? length (pre1 ++ rest1)); [ | discriminate ].
      exists pre1, rest1. split_and!; auto. simpl. auto.
    + exists [], s. split_and!; auto. simpl. auto.
Qed.

Lemma lang_upto3 (p : N -> bool) w :
  lang (upto3 (Cls p)) w ->
  1 <= length w <= 3 /\ Forall (fun c => p c = true) w.
Proof.
  unfold upto3. simpl.
  intros (u & v & -> & (c1 & -> & H1) & Hv).
  destruct Hv as [-> | (u2 & v2 & -> & (c2 & -> & H2) & Hv2)].
  - simpl. split; [ lia | repeat constructor; assumption ].
  - destruct Hv2 as [-> | (c3 & -> & H3)]; simpl;
      (split; [ lia | repeat constructor; assumption ]).
Qed.

Lemma lang_opt_ws sp :
  lang (Opt ws) sp -> length sp <= 1 /\ Forall (fun c => is_space c = true) sp.
Proof.
  simpl. intros [-> | (c & -> & Hc)]; simpl.
  - split; [ lia | constructor ].
  - split; [ lia | repeat constructor; assumption ].
Qed.

Lemma lang_track_behind b :
  lang track_behind b ->
  exists c b', b = b' ++ [c] /\ is_space c = true /\ (b' = [] \/ b' = [LPAREN]).
Proof.
  unfold track_behind. simpl.
  intros (u & v & -> & Hu & (c & -> & Hc)).
  exists c, u. split_and!; auto.
  destruct Hu as [-> | (c0 & -> & H0)]; [ auto | right ].
  apply N.eqb_eq in H0. subst c0. reflexivity.
Qed.

Lemma canonicalize_letter c u :
  (65 <= u <= 90)%N ->
  (canonicalize c =? u)%N = true -> c = u \/ c = (u + 32)%N.
Proof.
  intros Hu H. apply N.eqb_eq in H. unfold canonicalize in H.
  destruct (N.leb_spec 97 c); destruct (N.leb_spec c 122); simpl in H; lia.
Qed.

Lemma lang_track_markers m :
  lang track_markers m -> exists c m', m = c :: m' /\ marker_start c = true.
Proof.
  unfold track_markers, lit. simpl.
  intros [H | [H | H]].
  - destruct H as (u & v & -> & (c & -> & Hc) & _).
    exists c, v. split; [ reflexivity | ].
    apply canonicalize_letter in Hc as [-> | ->]; [ | | vm_compute; split; discriminate ];
      reflexivity.
  - destruct H as (u & v & -> & (c & -> & Hc) & _).
    exists c, v. split; [ reflexivity | ].
    apply canonicalize_letter in Hc as [-> | ->]; [ | | vm_compute; split; discriminate ];
      reflexivity.
  - destruct H as (u & v & -> & (c & -> & Hc) & _).
    exists c, v. split; [ reflexivity | ].
    apply N.eqb_eq in Hc. subst c. reflexivity.
Qed.

Lemma track_match_at_Some before after a :
  track_match_at before after = Some a ->
  exists b brest sp m tail,
    before = b ++ brest /\ lang track_behind b /\
    after = a ++ sp ++ m ++ tail /\ lang track_artist_group a /\
    lang (Opt ws) sp /\ lang track_markers m.
Proof.
  unfold track_match_at.
  destruct (re_match track_behind before Some) as [brest | ] eqn:Eb;
    [ | discriminate ].
  apply re_match_lang in Eb as (b & brest' & -> & Hb & Lb).
  destruct (re_match track_artist_group _ _) as [s1 | ] eqn:Ea;
    [ | discriminate ].
  intros H. inversion H; subst a; clear H.
  apply re_match_lang in Ea as (a & s1' & -> & Ha & La).
  apply re_match_lang in Ha as (sp & s2 & -> & Hm & Lsp).
  destruct (re_match track_markers s2 Some) as [tail | ] eqn:Em;
    [ | discriminate ].
  inversion Hm; subst s1; clear Hm.
  apply re_match_lang in Em as (m & tail' & -> & Ht & Lm).
  rewrite length_app.
  replace (length a + length (sp ++ m ++ tail') - length (sp ++ m ++ tail'))
    with (length a) by lia.
  rewrite take_app_length.
  exists b, brest', sp, m, tail'. split_and!; auto.
Qed.

Lemma track_search_Some after :
  forall before a,
    track_search before after = Some a ->
    exists skipped rest,
      after = skipped ++ rest /\
      track_match_at (rev skipped ++ before) rest = Some a.
Proof.
  induction after as [ | c after IH ]; intros before a H; simpl in H.
  - destruct (track_match_at before []) as [a' | ] eqn:E; [ | discriminate ].
    inversion H; subst a'. exists [], []. auto.
  - destruct (track_match_at before (c :: after)) as [a' | ] eqn:E.
    + inversion H; subst a'. exists [], (c :: after). auto.
    + apply IH in H as (skipped & rest & -> & Hm).
      exists (c :: skipped), rest. split; [ reflexivity | ].
      simpl. rewrite <- app_assoc. exact Hm.
Qed.

(** A guess is a match: what was skipped, reversed, begins with the
    look-behind; the guess is the group; then the optional white space
    and a marker word. *)
Lemma guess_artist_match (title a : jsstring) :
  guess_artist title = Some a ->
  exists skipped b brest sp m tail,
    title = skipped ++ a ++ sp ++ m ++ tail /\
    rev skipped = b ++ brest /\ lang track_behind b /\
    lang track_artist_group a /\ lang (Opt ws) sp /\ lang track_markers m.
Proof.
  unfold guess_artist. intros H.
  apply track_search_Some in H as (skipped & rest & -> & H).
  rewrite app_nil_r in H.
  apply track_match_at_Some in H
    as (b & brest & sp & m & tail & Hb & Lb & -> & La & Lsp & Lm).
  exists skipped, b, brest, sp, m, tail. auto 10.
Qed.

(** X17. What [guessTrackArtists] takes for the artist of a title.  The
    guess is a piece of the title of two to seven code units; it begins
    with a code unit that is no word character, no white space and no
    opening parenthesis, and does not end with white space; right
    before it the title has white space, or white space and an opening
    parenthesis, so a guess never starts the title; and behind it, after
    at most one white space, comes a marker word ([Ver], [Remix] in any
    case, or the katakana for solo). *)
Theorem guess_artist_shape (title a : jsstring) :
  guess_artist title = Some a ->
  exists pre post,
    title = pre ++ a ++ post /\
    2 <= length a <= 7 /\
    (exists c a', a = c :: a' /\ is_symbol c = true) /\
    (exists a' c, a = a' ++ [c] /\ is_space c = false) /\
    (exists pre' c,
       (pre = pre' ++ [c] \/ pre = pre' ++ [c; LPAREN]) /\ is_space c = true) /\
    (exists sp m tail,
       post = sp ++ m ++ tail /\ length sp <= 1 /\
       Forall (fun c => is_space c = true) sp /\ lang track_markers m).
Proof.
  intros H.
  apply guess_artist_match in H
    as (skipped & b & brest & sp & m & tail & -> & Hb & Lb & La & Lsp & Lm).
  exists skipped, (sp ++ m ++ tail). split; [ reflexivity | ].
  destruct La as (u & v & -> & Lu & (o & w & -> & Lo & Lw)).
  apply lang_upto3 in Lu as [Hu Fu]. apply lang_upto3 in Lw as [Hw Fw].
  assert (Ho : length o <= 1)
    by (destruct Lo as [-> | (c & -> & _)]; simpl; lia).
  split_and!.
  - rewrite !length_app. lia.
  - rewrite !length_app. lia.
  - destruct u as [ | c u']; [ simpl in Hu; lia | ].
    exists c, (u' ++ o ++ w). split; [ reflexivity | ].
    inversion Fu; assumption.
  - destruct (rev w) as [ | c w'] eqn:Ew.
    + apply (f_equal length) in Ew. rewrite length_rev in Ew.
      simpl in Ew. lia.
    + apply (f_equal (@rev N)) in Ew. rewrite rev_involutive in Ew.
      simpl in Ew. subst w.
      exists (u ++ o ++ rev w'), c. split; [ rewrite <- !app_assoc; reflexivity | ].
      apply Forall_app in Fw as [_ Fc]. inversion Fc as [ | ? ? Hc _ ]; subst.
      unfold non_space in Hc. apply negb_true_iff in Hc. exact Hc.
  - apply lang_track_behind in Lb as (c & b' & -> & Hc & Hb').
    apply (f_equal (@rev N)) in Hb.
    rewrite rev_involutive, rev_app_distr, rev_app_distr in Hb.
    simpl in Hb. rewrite Hb.
    exists (rev brest), c. split; [ | exact Hc ].
    destruct Hb' as [-> | ->]; simpl; auto.
  - apply lang_opt_ws in Lsp as [Hsp Fsp].
    exists sp, m, tail. auto.
Qed.

Lemma guess_artist_shape_witness :
  exists pre post,
    u16 "Song -A- ver" = pre ++ u16 "-A-" ++ post /\
    2 <= length (u16 "-A-") <= 7 /\
    (exists c a', u16 "-A-" = c :: a' /\ is_symbol c = true) /\
    (exists a' c, u16 "-A-" = a' ++ [c] /\ is_space c = false) /\
    (exists pre' c,
       (pre = pre' ++ [c] \/ pre = pre' ++ [c; LPAREN]) /\ is_space c = true) /\
    (exists sp m tail,
       post = sp ++ m ++ tail /\ length sp <= 1 /\
       Forall (fun c => is_space c = true) sp /\ lang track_markers m).
Proof.
  apply (guess_artist_shape (u16 "Song -A- ver") (u16 "-A-")).
  vm_compute. reflexivity.
Defined.

(** X18. A title without the letters [V], [v], [R], [r] and without the
    katakana [so] has no marker word, and no artist is guessed from it. *)
Theorem guess_artist_needs_marker (title : jsstring) :
  Forall (fun c => marker_start c = false) title ->
  guess_artist title = None.
Proof.
  intros Hf. destruct (guess_artist title) as [a | ] eqn:E; [ | reflexivity ].
  apply guess_artist_match in E
    as (skipped & b & brest & sp & m & tail & -> & _ & _ & _ & _ & Lm).
  apply lang_track_markers in Lm as (c & m' & -> & Hc).
  apply Forall_app in Hf as [_ Hf]. apply Forall_app in Hf as [_ Hf].
  apply Forall_app in Hf as [_ Hf]. apply Forall_app in Hf as [Hf _].
  inversion Hf; subst. congruence.
Qed.

Lemma guess_artist_needs_marker_witness : guess_artist (u16 "Plain -A- Mix") = None.
Proof.
  apply guess_artist_needs_marker. repeat constructor.
Defined.






